(** * moco clustering: the agent connection factory and the failover engine

    Shallow embedding of [clustering/agent.go] (the factory that dials a
    moco-agent over gRPC), followed by a model of the status collector,
    the cluster state aggregator, the failover decision logic and the
    topology operators.

    Conventions
    - Go [int] and [time.Duration] are [Z]; a duration counts nanoseconds.
    - A Go [error] is [option error]: [None] is the nil error.
    - Calls that leave the function (clock, resolver, reloader, gRPC) are
      events of a free monad [Prog]; a handler gives them a meaning over an
      arbitrary world, and [exec] also records the calls made. *)

From Stdlib Require Import ZArith String Ascii DecimalString.
From Stdlib Require DecimalZ.
From stdpp Require Import base list strings sorting.

Open Scope Z_scope.

(** ** Go runtime: time, context, net, strconv *)

Definition Duration := Z.
Definition Time := Z.

Definition Nanosecond : Duration := 1.
Definition Microsecond : Duration := 1000 * Nanosecond.
Definition Millisecond : Duration := 1000 * Microsecond.
Definition Second : Duration := 1000 * Millisecond.
Definition Minute : Duration := 60 * Second.

(** [time.Time.Add] *)
Definition Time_Add (t : Time) (d : Duration) : Time := t + d.

(** [time.Time.Before] *)
Definition Time_Before (t u : Time) : bool := t <? u.

(** The contexts of package [context], as far as deadlines go:
    [backgroundCtx], [cancelCtx] and [timerCtx]. *)
Inductive Context : Type :=
| backgroundCtx
| cancelCtx (parent : Context)
| timerCtx (parent : Context) (deadline : Time).

(** [Context.Deadline]: a [cancelCtx] inherits its parent's. *)
Fixpoint Deadline (c : Context) : option Time :=
  match c with
  | backgroundCtx => None
  | cancelCtx p => Deadline p
  | timerCtx _ d => Some d
  end.

(** [context.WithCancel] *)
Definition WithCancel (parent : Context) : Context := cancelCtx parent.

(** [context.WithDeadline]: when the parent expires sooner, only a
    cancellable child is made. *)
Definition WithDeadline (parent : Context) (d : Time) : Context :=
  match Deadline parent with
  | Some cur => if Time_Before cur d then WithCancel parent else timerCtx parent d
  | None => timerCtx parent d
  end.

(** [context.WithTimeout parent timeout] is
    [WithDeadline(parent, time.Now().Add(timeout))]; [now] is the clock
    reading. *)
Definition WithTimeout (parent : Context) (timeout : Duration) (now : Time) : Context :=
  WithDeadline parent (Time_Add now timeout).

(** [strings.IndexByte(s, c) >= 0] *)
Fixpoint containsByte (c : ascii) (s : string) : bool :=
  match s with
  | EmptyString => false
  | String a s' => if Ascii.eqb a c then true else containsByte c s'
  end.

(** [net.JoinHostPort]: a host with a colon is taken for a literal IPv6
    address and bracketed. *)
Definition JoinHostPort (host port : string) : string :=
  if containsByte ":"%char host
  then ("[" +:+ host +:+ "]:" +:+ port)%string
  else (host +:+ ":" +:+ port)%string.

(** [strconv.Itoa] *)
Definition Itoa (n : Z) : string := NilEmpty.string_of_int (Z.to_int n).

(** ** gRPC: dial options *)

(** A Go error, by its message. *)
Abbreviation error := string.

(** [keepalive.ClientParameters]; [Time_] is its field [Time], the period
    after which an idle connection is pinged. *)
Record ClientParameters : Type := {
  Time_ : Duration;
  Timeout : Duration;
  PermitWithoutStream : bool;
}.

(** What [agent.go] imports and this development does not define: the
    cluster resource, the resolver (an interface value), the certificate
    reloader (a pointer), a [*tls.Config], a [*grpc.ClientConn], RPC
    messages, the method [PodHostname] of the cluster resource and the
    constant [constants.AgentPort]. *)
Class Imports : Type := {
  MySQLCluster : Type;
  Resolver : Type;
  Reloader : Type;
  TLSConfig : Type;
  ClientConnRef : Type;
  Message : Type;
  PodHostname : MySQLCluster -> Z -> string;
  AgentPort : Z;
}.

Section Agent.

Context `{Imports}.

(** [credentials.NewTLS] *)
Inductive TransportCredentials : Type :=
| NewTLS (c : TLSConfig).

Inductive DialOption : Type :=
| WithAuthority (a : string)
| WithTransportCredentials (creds : TransportCredentials)
| WithKeepaliveParams (kp : ClientParameters).

(** ** Effects *)

Inductive Event : Type -> Type :=
| time_Now : Event Time
| Resolve (r : Resolver) (ctx : Context) (cluster : MySQLCluster) (index : Z)
    : Event (string * option error)
| TLSClientConfig (r : Reloader) : Event TLSConfig
| grpc_NewClient (target : string) (opts : list DialOption)
    : Event (option ClientConnRef * option error)
| cancel (ctx : Context) : Event unit
| ClientConn_Invoke (cc : ClientConnRef) (method : string) (req : Message)
    : Event (Message * option error)
| ClientConn_Close (cc : ClientConnRef) : Event (option error).

Inductive Prog (A : Type) : Type :=
| Ret (a : A)
| Vis {X : Type} (e : Event X) (k : X -> Prog A)
| Panic (msg : string).

Arguments Ret {A} a.
Arguments Vis {A X} e k.
Arguments Panic {A} msg.

Fixpoint bind {A B : Type} (p : Prog A) (f : A -> Prog B) : Prog B :=
  match p with
  | Ret a => f a
  | Vis e k => Vis e (fun x => bind (k x) f)
  | Panic m => Panic m
  end.

Definition call {X : Type} (e : Event X) : Prog X := Vis e Ret.

#[local] Notation "x <- p ;; q" := (bind p (fun x => q))
  (at level 100, p at next level, right associativity).

(** One recorded call: the event and what it returned. *)
Inductive Call : Type :=
| MkCall {X : Type} (e : Event X) (x : X).

Definition Handler (W : Type) : Type := forall X : Type, Event X -> W -> X * W.

Fixpoint exec {W A : Type} (h : Handler W) (p : Prog A) (w : W)
  : option A * W * list Call :=
  match p with
  | Ret a => (Some a, w, [])
  | Vis e k =>
      let '(x, w1) := h _ e w in
      let '(r, w2, tr) := exec h (k x) w1 in
      (r, w2, MkCall e x :: tr)
  | Panic _ => (None, w, [])
  end.

(** What a recorded call was: the arguments and result of a resolver
    call, of a reloader call, of a gRPC client creation. *)
Definition resolveOf (c : Call)
  : option (Resolver * Context * MySQLCluster * Z * (string * option error)) :=
  match c with
  | MkCall e x =>
      match e in Event X return X -> _ with
      | Resolve r ctx cluster index => fun x => Some (r, ctx, cluster, index, x)
      | _ => fun _ => None
      end x
  end.

Definition tlsConfigOf (c : Call) : option (Reloader * TLSConfig) :=
  match c with
  | MkCall e x =>
      match e in Event X return X -> _ with
      | TLSClientConfig r => fun x => Some (r, x)
      | _ => fun _ => None
      end x
  end.

Definition dialOf (c : Call)
  : option (string * list DialOption * (option ClientConnRef * option error)) :=
  match c with
  | MkCall e x =>
      match e in Event X return X -> _ with
      | grpc_NewClient target opts => fun x => Some (target, opts, x)
      | _ => fun _ => None
      end x
  end.

Definition clockOf (c : Call) : option Time :=
  match c with
  | MkCall e x =>
      match e in Event X return X -> _ with
      | time_Now => fun x => Some x
      | _ => fun _ => None
      end x
  end.

Definition cancelOf (c : Call) : option Context :=
  match c with
  | MkCall e _ =>
      match e with
      | cancel ctx => Some ctx
      | _ => None
      end
  end.

(** ** Interfaces of [agent.go] *)

(** [agent.AgentClient]: the generated stub; each method goes through
    [Invoke] of the connection it was built on. *)
Class agent_AgentClient (T : Type) : Type :=
  AgentClient_call : T -> string -> Message -> Prog (Message * option error).

(** [io.Closer] *)
Class io_Closer (T : Type) : Type :=
  Close : T -> Prog (option error).

(** The method set of interface [AgentConn]. *)
Class AgentConnMethods (T : Type) : Type := {
  AgentConn_AgentClient :: agent_AgentClient T;
  AgentConn_Closer :: io_Closer T;
}.

(** A value of interface type [AgentConn]: nil, or a value of a type with
    the method set. *)
Inductive AgentConn : Type :=
| nilAgentConn
| boxAgentConn {T : Type} `{AgentConnMethods T} (v : T).

(** [agent.NewAgentClient(cc)] returns [&agentClient{cc}]. *)
Record agentClient : Type := { cc : option ClientConnRef }.

Definition NewAgentClient (conn : option ClientConnRef) : agentClient :=
  {| cc := conn |}.

#[export] Instance agentClient_AgentClient : agent_AgentClient agentClient :=
  fun c method req =>
    match cc c with
    | Some conn => call (ClientConn_Invoke conn method req)
    | None => Panic "nil pointer dereference"
    end.

(** [type agentConn struct { agent.AgentClient; *grpc.ClientConn }]: both
    fields are embedded and both may be nil. *)
Record agentConn : Type := {
  AgentClient : option agentClient;
  ClientConn : option ClientConnRef;
}.

(** Methods promoted from the embedded [agent.AgentClient]. *)
#[export] Instance agentConn_AgentClient : agent_AgentClient agentConn :=
  fun c method req =>
    match AgentClient c with
    | Some cl => AgentClient_call cl method req
    | None => Panic "nil pointer dereference"
    end.

(** [Close] promoted from the embedded [*grpc.ClientConn]. *)
#[export] Instance agentConn_Closer : io_Closer agentConn :=
  fun c =>
    match ClientConn c with
    | Some conn => call (ClientConn_Close conn)
    | None => Panic "nil pointer dereference"
    end.

(** [var _ AgentConn = agentConn{}] *)
#[export] Instance agentConn_AgentConn : AgentConnMethods agentConn := {}.

(** Calls through an [AgentConn] interface value. *)
Definition AgentConn_call (c : AgentConn) (method : string) (req : Message)
  : Prog (Message * option error) :=
  match c with
  | nilAgentConn => Panic "nil pointer dereference"
  | boxAgentConn v => AgentClient_call v method req
  end.

Definition AgentConn_Close (c : AgentConn) : Prog (option error) :=
  match c with
  | nilAgentConn => Panic "nil pointer dereference"
  | boxAgentConn v => Close v
  end.

(** ** The factory *)

Record defaultAgentFactory : Type := {
  resolver : Resolver;
  reloader : Reloader;
}.

(** The method set of interface [AgentFactory]. *)
Class AgentFactory (T : Type) : Type :=
  AgentFactory_New : T -> Context -> MySQLCluster -> Z -> Prog (AgentConn * option error).

Definition NewAgentFactory (r : Resolver) (rl : Reloader) : defaultAgentFactory :=
  {| resolver := r; reloader := rl |}.

(** [agentConn{}] *)
Definition agentConn_zero : agentConn := {| AgentClient := None; ClientConn := None |}.

(** The body of [New] after [ctx, cancel := context.WithTimeout(...)]. *)
Definition New_body (f : defaultAgentFactory) (ctx : Context)
    (cluster : MySQLCluster) (index : Z) : Prog (AgentConn * option error) :=
  r <- call (Resolve (resolver f) ctx cluster index) ;;
  let '(ip, err) := r in
  match err with
  | Some e => Ret (nilAgentConn, Some e)
  | None =>
      let addr := JoinHostPort ip (Itoa AgentPort) in
      let kp := {| Time_ := 1 * Minute; Timeout := 0; PermitWithoutStream := false |} in
      cfg <- call (TLSClientConfig (reloader f)) ;;
      let cred := NewTLS cfg in
      r <- call (grpc_NewClient addr
                   [WithAuthority (PodHostname cluster index);
                    WithTransportCredentials cred;
                    WithKeepaliveParams kp]) ;;
      let '(conn, err) := r in
      match err with
      | Some e => Ret (boxAgentConn agentConn_zero, Some e)
      | None =>
          Ret (boxAgentConn {| AgentClient := Some (NewAgentClient conn);
                               ClientConn := conn |}, None)
      end
  end.

(** [func (f defaultAgentFactory) New(ctx, cluster, index) (AgentConn, error)];
    the deferred [cancel()] runs on every return. *)
Definition New (f : defaultAgentFactory) (ctx : Context)
    (cluster : MySQLCluster) (index : Z) : Prog (AgentConn * option error) :=
  now <- call time_Now ;;
  let ctx := WithTimeout ctx (5 * Second) now in
  r <- New_body f ctx cluster index ;;
  _ <- call (cancel ctx) ;;
  Ret r.

(** [var _ AgentFactory = defaultAgentFactory{}] *)
#[export] Instance defaultAgentFactory_AgentFactory : AgentFactory defaultAgentFactory := New.

(** The options a call of [New] hands to [grpc.NewClient], given the TLS
    configuration the reloader returned. *)
Definition dialOptions (cluster : MySQLCluster) (index : Z) (cfg : TLSConfig)
  : list DialOption :=
  [WithAuthority (PodHostname cluster index);
   WithTransportCredentials (NewTLS cfg);
   WithKeepaliveParams {| Time_ := 60 * Second; Timeout := 0; PermitWithoutStream := false |}].

(** The three ways a call of [New] can go: the result, and the calls made
    with what they returned. *)
Inductive NewRun (f : defaultAgentFactory) (ctx : Context) (cluster : MySQLCluster)
    (index : Z) : AgentConn * option error -> list Call -> Prop :=
| NewRun_resolve_failed (now : Time) (ip : string) (e : error) :
    let ctx' := WithTimeout ctx (5 * Second) now in
    NewRun f ctx cluster index (nilAgentConn, Some e)
      [MkCall time_Now now;
       MkCall (Resolve (resolver f) ctx' cluster index) (ip, Some e);
       MkCall (cancel ctx') ()]
| NewRun_dial_failed (now : Time) (ip : string) (cfg : TLSConfig)
    (conn : option ClientConnRef) (e : error) :
    let ctx' := WithTimeout ctx (5 * Second) now in
    NewRun f ctx cluster index (boxAgentConn agentConn_zero, Some e)
      [MkCall time_Now now;
       MkCall (Resolve (resolver f) ctx' cluster index) (ip, None);
       MkCall (TLSClientConfig (reloader f)) cfg;
       MkCall (grpc_NewClient (JoinHostPort ip (Itoa AgentPort))
                 (dialOptions cluster index cfg)) (conn, Some e);
       MkCall (cancel ctx') ()]
| NewRun_connected (now : Time) (ip : string) (cfg : TLSConfig)
    (conn : option ClientConnRef) :
    let ctx' := WithTimeout ctx (5 * Second) now in
    NewRun f ctx cluster index
      (boxAgentConn {| AgentClient := Some (NewAgentClient conn); ClientConn := conn |}, None)
      [MkCall time_Now now;
       MkCall (Resolve (resolver f) ctx' cluster index) (ip, None);
       MkCall (TLSClientConfig (reloader f)) cfg;
       MkCall (grpc_NewClient (JoinHostPort ip (Itoa AgentPort))
                 (dialOptions cluster index cfg)) (conn, None);
       MkCall (cancel ctx') ()].

End Agent.

(** ** Cluster model

    The collector, the aggregator, the decision logic and the operators
    are not in [agent.go]; the definitions below follow their written
    description (sections 3 and 4 of the specification). *)

Open Scope nat_scope.

(** Modelled from the spec: the InstanceStatus snapshot of section 3
    (read-only flag, replication thread states, last error numbers,
    source host and port, executed-transaction position); its Go
    declaration is missing. *)
Record InstanceStatus : Type := {
  ReadOnly : bool;
  IORunning : bool;
  SQLRunning : bool;
  LastIOErrno : Z;
  LastSQLErrno : Z;
  SourceHost : string;
  SourcePort : Z;
  ExecutedPosition : Z;
}.

(** Modelled from the spec: one slot of the collector's result, a status
    or the explicit per-index error marker (section 4.2); the collector's
    result type is missing. *)
Abbreviation Collected := (InstanceStatus + error)%type.

(** Modelled from the spec: the replication-source reference of sections
    3 and 6 (host, port, user, password); the options type used by the
    operators is missing. *)
Record ReplicationSource : Type := {
  PrimaryHost : string;
  PrimaryPort : Z;
  PrimaryUser : string;
  PrimaryPassword : string;
}.

(** Modelled from the spec: ClusterSpec of section 3, with the
    unreachable-instance tolerance that section 4.3 calls configured and
    section 9 asks to be an explicit parameter; its Go declaration is
    missing. *)
Record ClusterSpec : Type := {
  Replicas : nat;
  ReplicationSourceRef : option ReplicationSource;
  UnreachableTolerance : nat;
}.

(** *** Aggregator (section 4.3) *)

(** Modelled from the spec: the four classes of section 4.3; the
    aggregator's types are missing. *)
Inductive InstanceClass : Type :=
| Unreachable
| ReplicaHealthy
| ReplicaBroken
| PrimaryCandidate.

#[export] Instance InstanceClass_eq_dec : EqDecision InstanceClass.
Proof. solve_decision. Defined.

(** Modelled from the spec: the classification of one instance (section
    4.3); the aggregator's code is missing. *)
Definition classify (r : Collected) : InstanceClass :=
  match r with
  | inr _ => Unreachable
  | inl s =>
      if negb (ReadOnly s) then PrimaryCandidate
      else if IORunning s && SQLRunning s
              && (LastIOErrno s =? 0)%Z && (LastSQLErrno s =? 0)%Z
           then ReplicaHealthy
           else ReplicaBroken
  end.

(** Modelled from the spec: the reason codes of a degraded cluster, one
    per offending condition named in section 4.3 (no primary, more than
    one primary, a broken replica, unreachable instances beyond the
    tolerance); the aggregator's types are missing. *)
Inductive Reason : Type :=
| NoPrimary
| MultiplePrimaries
| BrokenReplica
| TooManyUnreachable.

(** Modelled from the spec: the health condition of section 3, healthy
    or degraded with its reason. *)
Inductive Health : Type :=
| Healthy
| Degraded (reason : Reason).

(** Modelled from the spec: ClusterStatus of section 3: health condition
    (the reason of a degraded cluster is its anomaly class), selected
    primary index or none, the instance statuses; its Go declaration is
    missing. *)
Record ClusterStatus : Type := {
  health : Health;
  primary : option nat;
  instances : list Collected;
}.

(** Modelled from the spec: the class the aggregator gives index [i], if
    [i] is an index of the cluster. *)
Definition classAt (l : list Collected) (i : nat) : option InstanceClass :=
  classify <$> l !! i.

(** Modelled from the spec: the indices of the instances of class [c],
    in index order (the primary candidates, the healthy replica set). *)
Definition indicesOf (c : InstanceClass) (l : list Collected) : list nat :=
  filter (fun i => classAt l i = Some c) (seq 0 (length l)).

(** Modelled from the spec: the health rule of section 4.3, with one
    reason per offending condition in the order the section lists them;
    the aggregator's code is missing. *)
Definition judge (spec : ClusterSpec) (l : list Collected) : Health :=
  let primaries := length (indicesOf PrimaryCandidate l) in
  if primaries =? 0 then Degraded NoPrimary
  else if 1 <? primaries then Degraded MultiplePrimaries
  else if 0 <? length (indicesOf ReplicaBroken l) then Degraded BrokenReplica
  else if UnreachableTolerance spec <? length (indicesOf Unreachable l)
       then Degraded TooManyUnreachable
  else Healthy.

(** Modelled from the spec: [Aggregate(ClusterSpec, []InstanceStatus)] of
    section 4.3; the primary index is recorded whenever a single instance
    is writable, healthy cluster or not. The aggregator's code is
    missing. *)
Definition Aggregate (spec : ClusterSpec) (l : list Collected) : ClusterStatus :=
  {| health := judge spec l;
     primary := match indicesOf PrimaryCandidate l with
                | [p] => Some p
                | _ => None
                end;
     instances := l |}.

(** *** Instances behind their agents *)

(** Modelled from the spec: what an instance holds that the RPC surface
    of section 6 reads or writes: the global read-only flag, the
    configured replication source, whether replication was started, the
    executed-transaction position. [link src] is the pair of error
    numbers (IO, SQL) the replication threads meet against [src];
    [reachable] tells whether RPCs get through to the agent. The agent's
    code is missing. *)
Record Instance : Type := {
  reachable : bool;
  read_only : bool;
  source : option ReplicationSource;
  replicating : bool;
  position : Z;
  link : ReplicationSource -> Z * Z;
}.

(** Modelled from the spec: the last IO error number of an instance; a
    thread that was not started has met no error. *)
Definition ioErrno (a : Instance) : Z :=
  match source a with
  | Some src => if replicating a then (link a src).1 else 0%Z
  | None => 0%Z
  end.

(** Modelled from the spec: the last SQL error number, likewise. *)
Definition sqlErrno (a : Instance) : Z :=
  match source a with
  | Some src => if replicating a then (link a src).2 else 0%Z
  | None => 0%Z
  end.

(** Modelled from the spec: the answer to the [GetStatus] RPC of section
    6; a started thread runs as long as it meets no error. *)
Definition GetStatus (a : Instance) : InstanceStatus :=
  {| ReadOnly := read_only a;
     IORunning := bool_decide (is_Some (source a)) && replicating a && (ioErrno a =? 0)%Z;
     SQLRunning := bool_decide (is_Some (source a)) && replicating a && (sqlErrno a =? 0)%Z;
     LastIOErrno := ioErrno a;
     LastSQLErrno := sqlErrno a;
     SourceHost := from_option PrimaryHost EmptyString (source a);
     SourcePort := from_option PrimaryPort 0%Z (source a);
     ExecutedPosition := position a |}.

(** Modelled from the spec: the effect of the [SetReadOnly] RPC. *)
Definition SetReadOnly (b : bool) (a : Instance) : Instance :=
  {| reachable := reachable a; read_only := b; source := source a;
     replicating := replicating a; position := position a; link := link a |}.

(** Modelled from the spec: the effect of the [ConfigureReplication] RPC,
    change-replication-source followed by start-replication. *)
Definition ConfigureReplication (src : ReplicationSource) (a : Instance) : Instance :=
  {| reachable := reachable a; read_only := read_only a; source := Some src;
     replicating := true; position := position a; link := link a |}.

(** Modelled from the spec: the instances of one cluster, by index. *)
Abbreviation World := (list Instance).

(** *** Collector (section 4.2) *)

(** Modelled from the spec: one status query; a failure to reach the
    agent becomes the error marker of that index. *)
Definition query (a : Instance) : Collected :=
  if reachable a then inl (GetStatus a) else inr "unreachable"%string.

(** Modelled from the spec: [Collect] of section 4.2. The queries run
    concurrently; [order] lists the indices in the order the queries
    complete, and each completion writes the slot of its own index. The
    collector's code is missing. *)
Definition Collect (order : list nat) (w : World) : list Collected :=
  foldl (fun res i =>
           match w !! i with
           | Some a => <[i := query a]> res
           | None => res
           end)
        (replicate (length w) (inr "pending"%string)) order.

(** *** Operators (section 4.5) *)

(** Modelled from the spec: the operator values of sections 3 and 4.5:
    target index, action kind and the options of the action;
    [configureReplica] names the cluster member to replicate from. The
    operator types are missing (only a test of one of them is present). *)
Inductive Operator : Type :=
| configureReplica (index : nat) (primaryIndex : nat)
| configureIntermediatePrimary (index : nat) (options : ReplicationSource)
| setReadOnly (index : nat)
| setWritable (index : nat).

(** Modelled from the spec: one mutating RPC to the agent of instance
    [i]; an agent that cannot be reached gives an error and no effect. *)
Definition rpc (i : nat) (f : Instance -> Instance) (w : World) : World * option error :=
  match w !! i with
  | None => (w, Some "no such instance"%string)
  | Some a =>
      if reachable a then (<[i := f a]> w, None)
      else (w, Some "agent unavailable"%string)
  end.

(** Modelled from the spec: the check that ends a configure operator: the
    replica reports the expected source host and no replication error; an
    error number is surfaced as it is. *)
Definition verifyReplica (src : ReplicationSource) (i : nat) (w : World) : option error :=
  match w !! i with
  | None => Some "no such instance"%string
  | Some a =>
      match query a with
      | inr e => Some e
      | inl s =>
          if negb (String.eqb (SourceHost s) (PrimaryHost src))
          then Some "unexpected source host"%string
          else if negb (LastIOErrno s =? 0)%Z
          then Some ("replication IO error " +:+ Itoa (LastIOErrno s))%string
          else if negb (LastSQLErrno s =? 0)%Z
          then Some ("replication SQL error " +:+ Itoa (LastSQLErrno s))%string
          else None
      end
  end.

(** Modelled from the spec: the mechanism shared by [configureReplica]
    and [configureIntermediatePrimary]: make the instance a (read-only)
    replica of [src], start replication, verify. The test of the
    intermediate-primary operator expects the read-only flag set after
    [Run]. *)
Definition configure (src : ReplicationSource) (i : nat) (w : World) : World * option error :=
  let '(w1, err) := rpc i (SetReadOnly true) w in
  match err with
  | Some e => (w1, Some e)
  | None =>
      let '(w2, err) := rpc i (ConfigureReplication src) w1 in
      match err with
      | Some e => (w2, Some e)
      | None => (w2, verifyReplica src i w2)
      end
  end.

Section Operators.

(** The endpoint and replication credentials under which cluster member
    [p] is reached by its replicas; they come from the cluster resource. *)
Variable memberSource : nat -> ReplicationSource.

(** Modelled from the spec: [Run] of section 4.5, on the world of
    instances; the result is the new world and the returned error. The
    operators' code is missing. *)
Definition Run (op : Operator) (w : World) : World * option error :=
  match op with
  | configureReplica i p => configure (memberSource p) i w
  | configureIntermediatePrimary i options => configure options i w
  | setReadOnly i => rpc i (SetReadOnly true) w
  | setWritable i => rpc i (SetReadOnly false) w
  end.

(** Modelled from the spec: the operators of one pass, run in order; an
    error of one does not stop the others (section 7). *)
Fixpoint RunAll (ops : list Operator) (w : World) : World * list (option error) :=
  match ops with
  | [] => (w, [])
  | op :: ops' =>
      let '(w1, err) := Run op w in
      let '(w2, errs) := RunAll ops' w1 in
      (w2, err :: errs)
  end.

(** Modelled from the spec: the state an operator is meant to leave its
    target in: a healthy replica of the given source for the configure
    operators, the flag set or cleared for the other two. *)
Definition replicaOf (src : ReplicationSource) (a : Instance) : Prop :=
  source a = Some src ∧ classify (inl (GetStatus a)) = ReplicaHealthy.

Definition endState (op : Operator) (w : World) : Prop :=
  match op with
  | configureReplica i p => ∃ a, w !! i = Some a ∧ replicaOf (memberSource p) a
  | configureIntermediatePrimary i options => ∃ a, w !! i = Some a ∧ replicaOf options a
  | setReadOnly i => ∃ a, w !! i = Some a ∧ read_only a = true
  | setWritable i => ∃ a, w !! i = Some a ∧ read_only a = false
  end.

(** Modelled from the spec: the target index of an operator. *)
Definition targetIndex (op : Operator) : nat :=
  match op with
  | configureReplica i _ | configureIntermediatePrimary i _
  | setReadOnly i | setWritable i => i
  end.

End Operators.

(** *** Decision logic (section 4.4) *)

(** Modelled from the spec: the executed-transaction position collected
    for index [i]. *)
Definition positionAt (l : list Collected) (i : nat) : Z :=
  match l !! i with
  | Some (inl s) => ExecutedPosition s
  | _ => 0%Z
  end.

(** Modelled from the spec: one comparison of the choice below: keep
    [b] unless [i] is strictly further; candidates are visited by
    increasing index, so of equal positions the lowest index stays. *)
Definition further (l : list Collected) (b i : nat) : nat :=
  if (positionAt l b <? positionAt l i)%Z then i else b.

(** Modelled from the spec: the choice among candidates by highest
    executed-transaction position, then lowest instance index (section
    4.4). *)
Definition selectBest (l : list Collected) (candidates : list nat) : option nat :=
  match candidates with
  | [] => None
  | c :: cs => Some (foldl (further l) c cs)
  end.

(** Modelled from the spec: the condition a pass reports; [Failed] is
    the one section 4.4 names. *)
Inductive Condition : Type :=
| NoCondition
| Failed.

(** Modelled from the spec: what one evaluation of the decision logic
    yields: the reported condition, the instance meant to be primary, the
    operators to run. *)
Record Actions : Type := {
  condition : Condition;
  target : option nat;
  operators : list Operator;
}.

(** Modelled from the spec: whether the observed source of an instance
    differs from the declared one (intermediate-primary mode, section
    4.4). *)
Definition drifted (src : ReplicationSource) (r : option Collected) : bool :=
  match r with
  | Some (inl s) =>
      negb (String.eqb (SourceHost s) (PrimaryHost src) && (SourcePort s =? PrimaryPort src)%Z)
  | _ => true
  end.

(** Modelled from the spec: the operators that make [t] the primary: in
    intermediate-primary mode it is pointed at the declared source when
    it drifted, otherwise it is made writable (the final step of a
    promotion, section 4.5). *)
Definition establish (spec : ClusterSpec) (l : list Collected) (t : nat) : list Operator :=
  match ReplicationSourceRef spec with
  | Some src => if drifted src (l !! t) then [configureIntermediatePrimary t src] else []
  | None => [setWritable t]
  end.

(** Modelled from the spec: one evaluation of the decision logic of
    section 4.4. The split-brain rule comes first; with no primary
    candidate a failover target is chosen among the healthy replicas or
    the pass fails; with one primary the broken replicas are repaired
    against it. The decision logic's code is missing; the spec names a
    tie-break only for the failover target, and the same order is used for
    the instance that stays writable. *)
Definition Decide (spec : ClusterSpec) (cs : ClusterStatus) : Actions :=
  let l := instances cs in
  let pcs := indicesOf PrimaryCandidate l in
  if 1 <? length pcs then
    let keep := selectBest l pcs in
    {| condition := NoCondition;
       target := keep;
       operators := setReadOnly <$> filter (fun i => Some i ≠ keep) pcs |}
  else
    match pcs with
    | [] =>
        match selectBest l (indicesOf ReplicaHealthy l) with
        | None => {| condition := Failed; target := None; operators := [] |}
        | Some t =>
            {| condition := NoCondition; target := Some t;
               operators := establish spec l t |}
        end
    | p :: _ =>
        {| condition := NoCondition;
           target := Some p;
           operators :=
             ((fun i => configureReplica i p) <$> indicesOf ReplicaBroken l)
             ++ match ReplicationSourceRef spec with
                | Some src =>
                    if drifted src (l !! p) then [configureIntermediatePrimary p src] else []
                | None => []
                end |}
    end.

(** Modelled from the spec: one reconciliation pass: collect, aggregate,
    decide, run the operators (section 2, control flow). *)
Definition pass (memberSource : nat -> ReplicationSource) (spec : ClusterSpec)
    (order : list nat) (w : World) : World :=
  (RunAll memberSource (operators (Decide spec (Aggregate spec (Collect order w)))) w).1.

(** *** Statements about a cluster *)

(** Exactly one instance is a primary candidate and every other instance
    that could be reached is a healthy replica. *)
Definition onePrimaryRestHealthy (l : list Collected) : Prop :=
  ∃ p, classAt l p = Some PrimaryCandidate
       ∧ ∀ j c, j ≠ p → classAt l j = Some c → c = Unreachable ∨ c = ReplicaHealthy.

(** The health rule read as an equivalence with nothing else to it. *)
Definition healthyIffOnePrimary (spec : ClusterSpec) (l : list Collected) : Prop :=
  health (Aggregate spec l) = Healthy ↔ onePrimaryRestHealthy l.


(** The instances a collection reports writable. *)
Definition writableIn (l : list Collected) (i : nat) : Prop :=
  ∃ s, l !! i = Some (inl s) ∧ ReadOnly s = false.

(** ** Observing the calls of [New] *)

(** The context a derived context was made from. *)
Definition parentOf (c : Context) : option Context :=
  match c with
  | backgroundCtx => None
  | cancelCtx p => Some p
  | timerCtx p _ => Some p
  end.

Section AgentCalls.

Context `{Imports}.

Inductive CallKind : Type :=
| ClockCall
| ResolveCall
| TLSConfigCall
| DialCall
| CancelCall
| InvokeCall
| CloseCall.

Definition kindOf (c : Call) : CallKind :=
  match c with
  | MkCall e _ =>
      match e with
      | time_Now => ClockCall
      | Resolve _ _ _ _ => ResolveCall
      | TLSClientConfig _ => TLSConfigCall
      | grpc_NewClient _ _ => DialCall
      | cancel _ => CancelCall
      | ClientConn_Invoke _ _ _ => InvokeCall
      | ClientConn_Close _ => CloseCall
      end
  end.

(** Of the resolver calls: the contexts they ran under, the addresses
    they returned, the errors they returned. *)
Definition resolveContexts (tr : list Call) : list Context :=
  (fun x => x.1.1.1.2) <$> omap resolveOf tr.

Definition resolvedAddresses (tr : list Call) : list string :=
  (fun x => x.2.1) <$> omap resolveOf tr.

Definition resolveErrors (tr : list Call) : list (option error) :=
  (fun x => x.2.2) <$> omap resolveOf tr.

(** The targets [grpc.NewClient] was called with. *)
Definition dialTargets (tr : list Call) : list string :=
  (fun x => x.1.1) <$> omap dialOf tr.

End AgentCalls.

(** ** The lifecycle test ([e2e/lifecycle_test.go])

    The functions handed to [Eventually], as functions of what the
    commands they run return. *)

Module lifecycle.

(** A condition of the cluster status, as far as the test reads it. *)
Record MySQLClusterCondition : Type := {
  Type_ : string;
  Status : string;
}.

(** [corev1.ConditionTrue] *)
Definition ConditionTrue : string := "True".

Section Healthy.

(** [mocov1beta1.ConditionHealthy], declared in the API package. *)
Variable ConditionHealthy : string.

(** The loop over [cluster.Status.Conditions] and the return after it. *)
Fixpoint healthOf (conds : list MySQLClusterCondition) : option error :=
  match conds with
  | [] => Some "no health condition"%string
  | cond :: rest =>
      if negb (String.eqb (Type_ cond) ConditionHealthy) then healthOf rest
      else if String.eqb (Status cond) ConditionTrue then None
      else Some ("cluster is not healthy: " +:+ Status cond)%string
  end.

(** The function of "should construct a single-instance cluster";
    [got] is what [getCluster("foo", "single")] returned: the conditions
    of the cluster and the error. *)
Definition clusterHealthy (got : list MySQLClusterCondition * option error) : option error :=
  let '(conds, err) := got in
  match err with
  | Some e => Some e
  | None => healthOf conds
  end.

End Healthy.

Section ConfigMaps.

(** [corev1.ConfigMap], its name, its rendering by the verb [%+v], and
    [json.Unmarshal] into a fresh [corev1.ConfigMapList]. *)
Variable ConfigMap : Type.
Variable Name : ConfigMap -> string.
Variable format : ConfigMap -> string.
Variable Unmarshal : string -> list ConfigMap * option error.

(** [case "kube-root-ca.crt", "mycnf":] *)
Definition expected (cm : ConfigMap) : bool :=
  String.eqb (Name cm) "kube-root-ca.crt" || String.eqb (Name cm) "mycnf".

(** The loop over [cms.Items] and the return after it. *)
Fixpoint pendingConfigMap (items : list ConfigMap) : option error :=
  match items with
  | [] => None
  | cm :: rest =>
      if expected cm then pendingConfigMap rest
      else Some ("pending config map " +:+ format cm)%string
  end.

(** The third function of "should collect generated resources after
    deleting MySQLCluster"; [got] is what [kubectl] returned: its output
    and the error. *)
Definition configMapsCollected (got : string * option error) : option error :=
  let '(out, err) := got in
  match err with
  | Some e => Some e
  | None =>
      let '(items, err) := Unmarshal out in
      match err with
      | Some e => Some e
      | None => pendingConfigMap items
      end
  end.

End ConfigMaps.

End lifecycle.

(** ** A concrete setting

    Names, addresses and instances on which the definitions above can be
    evaluated. *)

Close Scope nat_scope.
Open Scope Z_scope.

Definition sampleImports : Imports :=
  {| MySQLCluster := string;
     Resolver := string;
     Reloader := string;
     TLSConfig := nat;
     ClientConnRef := nat;
     Message := string;
     PodHostname := fun cluster index =>
       ("moco-" +:+ cluster +:+ "-" +:+ Itoa index +:+ ".moco-" +:+ cluster +:+ ".foo.svc")%string;
     AgentPort := 9080 |}.

(** A world that counts the calls made so far; the clock reads 1000 ns,
    the resolver answers 10.0.0.7 or fails with [resolveErr], the reloader
    hands out the configuration numbered by the call count, and
    [grpc.NewClient] returns the connection numbered by the call count or
    fails with [dialErr]. *)
Definition sampleHandler (resolveErr dialErr : option error)
  : @Handler sampleImports nat :=
  fun X e =>
    match e in Event X return nat -> X * nat with
    | time_Now => fun n => (1000, S n)
    | Resolve _ _ _ _ => fun n => (("10.0.0.7"%string, resolveErr), S n)
    | TLSClientConfig _ => fun n => (n, S n)
    | grpc_NewClient _ _ =>
        fun n => ((match dialErr with None => Some n | Some _ => None end, dialErr), S n)
    | cancel _ => fun n => ((), S n)
    | ClientConn_Invoke _ _ req => fun n => ((req, None), S n)
    | ClientConn_Close _ => fun n => (None, S n)
    end.

Definition sampleFactory : @defaultAgentFactory sampleImports :=
  @NewAgentFactory sampleImports "resolver"%string "reloader"%string.

Definition sampleSource : ReplicationSource :=
  {| PrimaryHost := "mysqld2"; PrimaryPort := 3307;
     PrimaryUser := "root"; PrimaryPassword := "secret" |}.

(** Cluster member [p] as a replication source. *)
Definition sampleMember (p : nat) : ReplicationSource :=
  {| PrimaryHost := "moco-single-" +:+ Itoa (Z.of_nat p); PrimaryPort := 3306;
     PrimaryUser := "moco-repl"; PrimaryPassword := "secret" |}.

(** Every source can be replicated from without error. *)
Definition sampleLink (src : ReplicationSource) : Z * Z := (0, 0).

(** A writable instance at position [pos]. *)
Definition sampleWritable (pos : Z) : Instance :=
  {| reachable := true; read_only := false; source := None;
     replicating := false; position := pos; link := sampleLink |}.

(** A read-only instance replicating from [src], at position [pos]. *)
Definition sampleReplica (src : ReplicationSource) (pos : Z) : Instance :=
  {| reachable := true; read_only := true; source := Some src;
     replicating := true; position := pos; link := sampleLink |}.

(** A read-only instance whose replication was never started. *)
Definition sampleStopped (pos : Z) : Instance :=
  {| reachable := true; read_only := true; source := None;
     replicating := false; position := pos; link := sampleLink |}.

(** An instance whose agent does not answer. *)
Definition sampleDown : Instance :=
  {| reachable := false; read_only := false; source := None;
     replicating := false; position := 0; link := sampleLink |}.

Definition sampleSpec (tolerance : nat) : ClusterSpec :=
  {| Replicas := 3; ReplicationSourceRef := None; UnreachableTolerance := tolerance |}.

(** * Properties of the connection factory *)

Lemma Second_ns : Second = 1000000000.
Proof. reflexivity. Qed.

Lemma Minute_seconds : 1 * Minute = 60 * Second.
Proof. reflexivity. Qed.

(** A context made by [WithDeadline] never outlives the requested
    deadline, whatever the parent. *)
Lemma WithDeadline_bound (parent : Context) (d : Time) :
  ∃ d', Deadline (WithDeadline parent d) = Some d' ∧ d' ≤ d.
Proof.
  unfold WithDeadline, Time_Before, WithCancel.
  destruct (Deadline parent) as [cur|] eqn:Hp; simpl.
  - destruct (Z.ltb_spec cur d); simpl.
    + rewrite Hp. exists cur. split; [done | lia].
    + exists d. split; [done | lia].
  - exists d. split; [done | lia].
Qed.

Lemma WithTimeout_bound (parent : Context) (t : Duration) (now : Time) :
  ∃ d', Deadline (WithTimeout parent t now) = Some d' ∧ d' ≤ now + t.
Proof. apply WithDeadline_bound. Qed.

Section AgentProps.

Context `{Imports}.

(** [New] always returns, and its result and calls are one of the three
    runs of [NewRun], under every behaviour of the clock, the resolver,
    the reloader and gRPC. *)
Lemma exec_New {W : Type} (h : Handler W) (w : W) (f : defaultAgentFactory)
    (ctx : Context) (cluster : MySQLCluster) (index : Z) :
  ∃ res w' tr,
    exec h (New f ctx cluster index) w = (Some res, w', tr)
    ∧ NewRun f ctx cluster index res tr.
Proof.
  unfold New, New_body, call. simpl.
  destruct (h _ time_Now w) as [now w1].
  destruct (h _ (Resolve (resolver f) (WithTimeout ctx (5 * Second) now) cluster index) w1)
    as [[ip [e|]] w2]; simpl.
  - destruct (h _ (cancel (WithTimeout ctx (5 * Second) now)) w2) as [[] w3].
    eexists _, _, _. split; [reflexivity | apply NewRun_resolve_failed].
  - destruct (h _ (TLSClientConfig (reloader f)) w2) as [cfg w3].
    destruct (h _ (grpc_NewClient (JoinHostPort ip (Itoa AgentPort))
                     [WithAuthority (PodHostname cluster index);
                      WithTransportCredentials (NewTLS cfg);
                      WithKeepaliveParams
                        {| Time_ := 1 * Minute; Timeout := 0;
                           PermitWithoutStream := false |}]) w3)
      as [[conn [e|]] w4]; simpl;
      destruct (h _ (cancel (WithTimeout ctx (5 * Second) now)) w4) as [[] w5];
      eexists _, _, _; (split; [reflexivity |]).
    + apply NewRun_dial_failed.
    + apply NewRun_connected.
Qed.

(** The same, for a run whose outcome is already named. *)
Lemma exec_New_inv {W : Type} (h : Handler W) (w w' : W) (f : defaultAgentFactory)
    (ctx : Context) (cluster : MySQLCluster) (index : Z) r tr :
  exec h (New f ctx cluster index) w = (r, w', tr) →
  ∃ res, r = Some res ∧ NewRun f ctx cluster index res tr.
Proof.
  intros Hrun.
  destruct (exec_New h w f ctx cluster index) as (res & w0 & tr0 & Hex & Hnr).
  rewrite Hex in Hrun. injection Hrun as <- <- <-. eauto.
Qed.

(** Running two programs in sequence runs the second in the world the
    first left, and nothing else is carried over. *)
Lemma exec_bind {W A B : Type} (h : Handler W) (p : Prog A) (k : A → Prog B) (w : W) :
  exec h (bind p k) w =
    match exec h p w with
    | (Some a, w1, tr1) =>
        let '(r, w2, tr2) := exec h (k a) w1 in (r, w2, tr1 ++ tr2)
    | (None, w1, tr1) => (None, w1, tr1)
    end.
Proof.
  revert w. induction p as [a | X e k' IH | m]; intros w; simpl.
  - destruct (exec h (k a) w) as [[r w2] tr2]. reflexivity.
  - destruct (h X e w) as [x w1]. rewrite IH.
    destruct (exec h (k' x) w1) as [[[a|] w2] tr1]; [|reflexivity].
    destruct (exec h (k a) w2) as [[r w3] tr2]. reflexivity.
  - reflexivity.
Qed.

(** C6: every call of [New] asks the resolver exactly once, under a
    context whose deadline is at most 5 seconds (5 000 000 000 ns) after
    the clock reading taken at the start of the call; when the resolver
    fails, [New] returns that very error with a nil connection and never
    goes on to create a gRPC client or to ask again. The derived context
    is cancelled when [New] returns. *)
Theorem New_resolves_once_within_5s {W : Type} (h : Handler W) (w : W)
    (f : defaultAgentFactory) (ctx : Context) (cluster : MySQLCluster) (index : Z) :
  ∃ res w' tr now ip err,
    exec h (New f ctx cluster index) w = (Some res, w', tr)
    ∧ omap clockOf tr = [now]
    ∧ omap resolveOf tr =
        [(resolver f, WithTimeout ctx (5 * Second) now, cluster, index, (ip, err))]
    ∧ (∃ d, Deadline (WithTimeout ctx (5 * Second) now) = Some d
            ∧ d ≤ now + 5000000000)
    ∧ omap cancelOf tr = [WithTimeout ctx (5 * Second) now]
    ∧ (∀ e, err = Some e →
            res = (nilAgentConn, Some e) ∧ omap dialOf tr = [] ∧ length tr = 3%nat).
Proof.
  destruct (exec_New h w f ctx cluster index) as (res & w' & tr & Hex & Hnr).
  destruct Hnr as [now ip e ctx'|now ip cfg conn e ctx'|now ip cfg conn ctx'];
    [eexists _, w', _, now, ip, (Some e)
    |eexists _, w', _, now, ip, None
    |eexists _, w', _, now, ip, None];
    (split; [exact Hex|]); (split; [reflexivity|]); (split; [reflexivity|]);
    (split; [apply (WithTimeout_bound ctx (5 * Second) now)|]);
    (split; [reflexivity|]).
  - intros e' [= <-]. done.
  - intros e' [=].
  - intros e' [=].
Qed.

(** C7: when [New] succeeds, it created the gRPC client exactly once, for
    the target made of the resolved address and the agent port, with the
    authority set to the pod hostname of the instance (a value that does
    not depend on the resolved address), with TLS credentials built from
    the configuration the reloader returned during this very call (after
    resolution, before the client is created), and with keepalive
    parameters whose ping period is 60 seconds. *)
Theorem New_success_dial_options {W : Type} (h : Handler W) (w w' : W)
    (f : defaultAgentFactory) (ctx : Context) (cluster : MySQLCluster) (index : Z)
    (c : AgentConn) (tr : list Call) :
  exec h (New f ctx cluster index) w = (Some (c, None), w', tr) →
  ∃ now ip cfg conn,
    tr = [MkCall time_Now now;
          MkCall (Resolve (resolver f) (WithTimeout ctx (5 * Second) now) cluster index)
                 (ip, None);
          MkCall (TLSClientConfig (reloader f)) cfg;
          MkCall (grpc_NewClient (JoinHostPort ip (Itoa AgentPort))
                    [WithAuthority (PodHostname cluster index);
                     WithTransportCredentials (NewTLS cfg);
                     WithKeepaliveParams
                       {| Time_ := 60 * Second; Timeout := 0;
                          PermitWithoutStream := false |}])
                 (conn, None);
          MkCall (cancel (WithTimeout ctx (5 * Second) now)) ()]
    ∧ 60 * Second = 60000000000.
Proof.
  intros Hrun. apply exec_New_inv in Hrun as (res & [= <-] & Hnr).
  inversion Hnr as [| |now ip cfg conn ctx' Hc Htr]; subst.
  exists now, ip, cfg, conn. split; reflexivity.
Qed.

(** C8: the value a successful [New] returns is a non-nil [AgentConn]
    holding an [agentConn] whose embedded client is the stub built on the
    connection [grpc.NewClient] returned and whose embedded connection is
    that same connection, so client calls and [Close] both reach it; the
    factory is nothing but its resolver and its reloader, as given to
    [NewAgentFactory]; two factories with the same collaborators run the
    same [New]; and a second call runs as a fresh [New] in the world the
    first call left. *)
Theorem New_result_client_and_closer {W : Type} (h : Handler W) (w w' : W)
    (f : defaultAgentFactory) (ctx : Context) (cluster : MySQLCluster) (index : Z)
    (c : AgentConn) (tr : list Call) :
  exec h (New f ctx cluster index) w = (Some (c, None), w', tr) →
  (∃ conn,
      c = boxAgentConn {| AgentClient := Some (NewAgentClient conn); ClientConn := conn |}
      ∧ (omap dialOf tr).*2 = [(conn, None)]
      ∧ ∀ cc, conn = Some cc →
          AgentConn_Close c = call (ClientConn_Close cc)
          ∧ ∀ method req,
              AgentConn_call c method req = call (ClientConn_Invoke cc method req))
  ∧ f = NewAgentFactory (resolver f) (reloader f)
  ∧ (∀ g : defaultAgentFactory,
        resolver g = resolver f → reloader g = reloader f → New g = New f)
  ∧ (∀ ctx2 cluster2 index2,
        exec h (bind (New f ctx cluster index) (fun _ => New f ctx2 cluster2 index2)) w =
          let '(r, w2, tr2) := exec h (New f ctx2 cluster2 index2) w' in
          (r, w2, tr ++ tr2)).
Proof.
  intros Hrun. split; [|split; [|split]].
  - apply exec_New_inv in Hrun as (res & [= <-] & Hnr).
    inversion Hnr as [| |now ip cfg conn ctx' Hc Htr]; subst.
    exists conn. split; [reflexivity|]. split; [reflexivity|].
    intros cc ->. split; [reflexivity|]. intros method req. reflexivity.
  - destruct f; reflexivity.
  - intros [r rl]. destruct f as [r' rl']. simpl. intros -> ->. reflexivity.
  - intros ctx2 cluster2 index2. rewrite exec_bind, Hrun. reflexivity.
Qed.

(** C10: the two failure paths of [New] return different shapes. When
    the resolver, asked under the derived context, answers with an error,
    [New] returns the nil [AgentConn] with that error and creates no gRPC
    client. When the resolver succeeds and [grpc.NewClient], called with
    the target and options of [New], answers with an error, [New] returns
    a non-nil [AgentConn] holding the zero [agentConn] (nil client, nil
    connection) with that error, whatever connection came with it. No
    other run returns an error, and the two shapes differ. *)
Theorem New_failure_shapes {W : Type} (h : Handler W) (w : W)
    (f : defaultAgentFactory) (ctx : Context) (cluster : MySQLCluster) (index : Z) :
  (∀ now w1 ip e w2,
      h _ time_Now w = (now, w1) →
      h _ (Resolve (resolver f) (WithTimeout ctx (5 * Second) now) cluster index) w1
        = ((ip, Some e), w2) →
      ∃ w' tr,
        exec h (New f ctx cluster index) w = (Some (nilAgentConn, Some e), w', tr)
        ∧ (omap resolveOf tr).*2 = [(ip, Some e)]
        ∧ omap dialOf tr = [])
  ∧ (∀ now w1 ip w2 cfg w3 conn e w4,
      h _ time_Now w = (now, w1) →
      h _ (Resolve (resolver f) (WithTimeout ctx (5 * Second) now) cluster index) w1
        = ((ip, None), w2) →
      h _ (TLSClientConfig (reloader f)) w2 = (cfg, w3) →
      h _ (grpc_NewClient (JoinHostPort ip (Itoa AgentPort))
             [WithAuthority (PodHostname cluster index);
              WithTransportCredentials (NewTLS cfg);
              WithKeepaliveParams
                {| Time_ := 1 * Minute; Timeout := 0; PermitWithoutStream := false |}]) w3
        = ((conn, Some e), w4) →
      ∃ w' tr,
        exec h (New f ctx cluster index) w
          = (Some (boxAgentConn agentConn_zero, Some e), w', tr)
        ∧ (omap resolveOf tr).*2 = [(ip, None)]
        ∧ (omap dialOf tr).*2 = [(conn, Some e)])
  ∧ (∀ c e w' tr,
      exec h (New f ctx cluster index) w = (Some (c, Some e), w', tr) →
      (c = nilAgentConn
       ∧ (omap resolveOf tr).*2.*2 = [Some e] ∧ omap dialOf tr = [])
      ∨ (c = boxAgentConn agentConn_zero
         ∧ (omap resolveOf tr).*2.*2 = [None] ∧ (omap dialOf tr).*2.*2 = [Some e]))
  ∧ nilAgentConn ≠ boxAgentConn agentConn_zero
  ∧ AgentClient agentConn_zero = None
  ∧ ClientConn agentConn_zero = None.
Proof.
  split; [|split; [|split]].
  - intros now w1 ip e w2 Hnow Hres.
    unfold New, New_body, call. simpl. rewrite Hnow, Hres. simpl.
    destruct (h _ (cancel (WithTimeout ctx (5 * Second) now)) w2) as [[] w3].
    eexists _, _. split; [reflexivity|]. split; reflexivity.
  - intros now w1 ip w2 cfg w3 conn e w4 Hnow Hres Hcfg Hdial.
    unfold New, New_body, call. simpl. rewrite Hnow, Hres. simpl.
    rewrite Hcfg, Hdial. simpl.
    destruct (h _ (cancel (WithTimeout ctx (5 * Second) now)) w4) as [[] w5].
    eexists _, _. split; [reflexivity|]. split; reflexivity.
  - intros c e w' tr Hrun.
    apply exec_New_inv in Hrun as (res & [= <-] & Hnr).
    inversion Hnr; subst; [left | right]; repeat split.
  - repeat split; discriminate.
Qed.

End AgentProps.

#[local] Existing Instance sampleImports.

(** Both failure paths, and the successful one, do occur. *)
Example New_sample_resolve_failure :
  (exec (sampleHandler (Some "no such host"%string) None)
        (New sampleFactory backgroundCtx "single"%string 0) 0%nat).1.1
  = Some (nilAgentConn, Some "no such host"%string).
Proof. reflexivity. Qed.

Example New_sample_dial_failure :
  (exec (sampleHandler None (Some "bad target"%string))
        (New sampleFactory backgroundCtx "single"%string 0) 0%nat).1.1
  = Some (boxAgentConn agentConn_zero, Some "bad target"%string).
Proof. reflexivity. Qed.

Example New_sample_success :
  exec (sampleHandler None None) (New sampleFactory backgroundCtx "single"%string 0) 0%nat
  = (Some (boxAgentConn {| AgentClient := Some (NewAgentClient (Some 3%nat));
                           ClientConn := Some 3%nat |}, None),
     5%nat,
     [MkCall time_Now 1000;
      MkCall (Resolve "resolver"%string (timerCtx backgroundCtx 5000001000)
                "single"%string 0) ("10.0.0.7"%string, None);
      MkCall (TLSClientConfig "reloader"%string) 2%nat;
      MkCall (grpc_NewClient "10.0.0.7:9080"%string
                [WithAuthority "moco-single-0.moco-single.foo.svc"%string;
                 WithTransportCredentials (NewTLS 2%nat);
                 WithKeepaliveParams {| Time_ := 60000000000; Timeout := 0;
                                        PermitWithoutStream := false |}])
             (Some 3%nat, None);
      MkCall (cancel (timerCtx backgroundCtx 5000001000)) ()]).
Proof. reflexivity. Qed.

Lemma New_failure_shapes_witness :
  (exec (sampleHandler (Some "no such host"%string) None)
        (New sampleFactory backgroundCtx "single"%string 0) 0%nat).1.1
  = Some (nilAgentConn, Some "no such host"%string)
  ∧ (exec (sampleHandler None (Some "bad target"%string))
          (New sampleFactory backgroundCtx "single"%string 0) 0%nat).1.1
    = Some (boxAgentConn agentConn_zero, Some "bad target"%string).
Proof.
  split.
  - destruct (New_failure_shapes (H := sampleImports)
                (sampleHandler (Some "no such host"%string) None) 0%nat
                sampleFactory backgroundCtx "single"%string 0) as [Hresolve _].
    destruct (Hresolve 1000 1%nat "10.0.0.7"%string "no such host"%string 2%nat
                eq_refl eq_refl) as (w' & tr & Hex & _).
    rewrite Hex. reflexivity.
  - destruct (New_failure_shapes (H := sampleImports)
                (sampleHandler None (Some "bad target"%string)) 0%nat
                sampleFactory backgroundCtx "single"%string 0) as [_ [Hdial _]].
    destruct (Hdial 1000 1%nat "10.0.0.7"%string 2%nat 2%nat 3%nat None
                "bad target"%string 4%nat eq_refl eq_refl eq_refl eq_refl)
      as (w' & tr & Hex & _).
    rewrite Hex. reflexivity.
Defined.

Lemma New_result_client_and_closer_witness :
  let c := boxAgentConn (H := sampleImports)
             {| AgentClient := Some (NewAgentClient (H := sampleImports) (Some 3%nat));
                ClientConn := Some 3%nat |} in
  let h := sampleHandler None None in
  let f := sampleFactory in
  let tr := (exec h (New f backgroundCtx "single"%string 0) 0%nat).2 in
  (∃ conn,
      c = boxAgentConn {| AgentClient := Some (NewAgentClient conn); ClientConn := conn |}
      ∧ (omap dialOf tr).*2 = [(conn, None)]
      ∧ ∀ cc, conn = Some cc →
          AgentConn_Close c = call (ClientConn_Close cc)
          ∧ ∀ method req,
              AgentConn_call c method req = call (ClientConn_Invoke cc method req))
  ∧ f = NewAgentFactory (resolver f) (reloader f)
  ∧ (∀ g : defaultAgentFactory,
        resolver g = resolver f → reloader g = reloader f → New g = New f)
  ∧ (∀ ctx2 cluster2 index2,
        exec h (bind (New f backgroundCtx "single"%string 0)
                  (fun _ => New f ctx2 cluster2 index2)) 0%nat =
          let '(r, w2, tr2) := exec h (New f ctx2 cluster2 index2) 5%nat in
          (r, w2, tr ++ tr2)).
Proof.
  apply (New_result_client_and_closer (H := sampleImports)
           (sampleHandler None None) 0%nat 5%nat
           sampleFactory backgroundCtx "single"%string 0).
  reflexivity.
Defined.

Lemma New_success_dial_options_witness :
  ∃ now ip cfg conn,
    (exec (sampleHandler None None)
          (New sampleFactory backgroundCtx "single"%string 0) 0%nat).2
    = [MkCall time_Now now;
       MkCall (Resolve (resolver sampleFactory)
                 (WithTimeout backgroundCtx (5 * Second) now) "single"%string 0)
              (ip, None);
       MkCall (TLSClientConfig (reloader sampleFactory)) cfg;
       MkCall (grpc_NewClient (JoinHostPort ip (Itoa AgentPort))
                 [WithAuthority (PodHostname "single"%string 0);
                  WithTransportCredentials (NewTLS cfg);
                  WithKeepaliveParams
                    {| Time_ := 60 * Second; Timeout := 0;
                       PermitWithoutStream := false |}])
              (conn, None);
       MkCall (cancel (WithTimeout backgroundCtx (5 * Second) now)) ()]
    ∧ 60 * Second = 60000000000.
Proof.
  apply (New_success_dial_options (H := sampleImports)
           (sampleHandler None None) 0%nat 5%nat
           sampleFactory backgroundCtx "single"%string 0
           (boxAgentConn (H := sampleImports)
              {| AgentClient := Some (NewAgentClient (H := sampleImports) (Some 3%nat));
                 ClientConn := Some 3%nat |})).
  reflexivity.
Defined.

(** * Properties of the cluster model *)

Close Scope Z_scope.
Open Scope nat_scope.

(** ** Collector *)

Lemma Collect_step_length (w : World) (res : list Collected) (i : nat) :
  length (match w !! i with Some a => <[i := query a]> res | None => res end)
  = length res.
Proof. destruct (w !! i); [apply length_insert | reflexivity]. Qed.

(** Slot [i] holds the answer of instance [i] as soon as its query has
    completed, and is untouched by the completion of any other query. *)
Lemma Collect_fold_lookup (w : World) (order : list nat) (res : list Collected) (i : nat) :
  length res = length w →
  foldl (fun res i =>
           match w !! i with
           | Some a => <[i := query a]> res
           | None => res
           end) res order !! i
  = if decide (i ∈ order) then query <$> w !! i else res !! i.
Proof.
  revert res. induction order as [|j order IH]; intros res Hlen.
  - reflexivity.
  - cbn [foldl]. rewrite IH by (rewrite Collect_step_length; exact Hlen).
    destruct (decide (i ∈ order)) as [Hin|Hnin];
      destruct (decide (i ∈ j :: order)) as [Hin'|Hnin']; try reflexivity.
    + exfalso. apply Hnin'. right. exact Hin.
    + apply elem_of_cons in Hin' as [->|?]; [|done].
      destruct (w !! j) as [a|] eqn:Hw; simpl.
      * apply list_lookup_insert_eq. rewrite Hlen. eapply lookup_lt_Some, Hw.
      * apply lookup_ge_None. rewrite Hlen. apply lookup_ge_None, Hw.
    + assert (i ≠ j) by (intros ->; apply Hnin'; left).
      destruct (w !! j); [apply list_lookup_insert_ne; done | reflexivity].
Qed.

(** Whatever the order in which the queries complete, the result lists
    the answers by instance index. *)
Lemma Collect_by_index (w : World) (order : list nat) :
  order ≡ₚ seq 0 (length w) → Collect order w = query <$> w.
Proof.
  intros Hperm. apply list_eq. intros i. unfold Collect.
  rewrite Collect_fold_lookup by apply length_replicate.
  rewrite list_lookup_fmap.
  destruct (decide (i ∈ order)) as [Hin|Hnin]; [reflexivity|].
  assert (length w ≤ i) as Hge.
  { destruct (decide (i < length w)) as [Hlt|]; [|lia].
    exfalso. apply Hnin. rewrite Hperm. apply elem_of_seq. lia. }
  rewrite (proj2 (lookup_ge_None w i)) by exact Hge.
  apply lookup_ge_None. rewrite length_replicate. exact Hge.
Qed.

(** ** Aggregator *)

Lemma elem_of_indicesOf (c : InstanceClass) (l : list Collected) (i : nat) :
  i ∈ indicesOf c l ↔ classAt l i = Some c.
Proof.
  unfold indicesOf. rewrite list_elem_of_filter, elem_of_seq.
  split; [tauto|]. intros Hc. split; [exact Hc|].
  unfold classAt in Hc. destruct (l !! i) eqn:Hl; [|discriminate].
  apply lookup_lt_Some in Hl. lia.
Qed.

Lemma NoDup_indicesOf (c : InstanceClass) (l : list Collected) :
  NoDup (indicesOf c l).
Proof. apply NoDup_filter, NoDup_seq. Qed.


(** A duplicate-free list all of whose elements are [p] has at most one
    element. *)
Lemma NoDup_all_eq_length (p : nat) (l : list nat) :
  NoDup l → (∀ i, i ∈ l → i = p) → length l ≤ 1.
Proof.
  intros Hnd Hall. destruct l as [|a [|b r]]; simpl; [lia | lia |].
  exfalso. assert (a = p) as -> by (apply Hall; left).
  assert (b = p) as -> by (apply Hall; right; left).
  apply NoDup_cons in Hnd as [Hnin _]. apply Hnin. left.
Qed.

Lemma indicesOf_singleton (c : InstanceClass) (l : list Collected) (p : nat) :
  indicesOf c l = [p] ↔ classAt l p = Some c ∧ ∀ j, classAt l j = Some c → j = p.
Proof.
  split.
  - intros Heq. split.
    + apply elem_of_indicesOf. rewrite Heq. left.
    + intros j Hj. apply elem_of_indicesOf in Hj. rewrite Heq in Hj.
      by apply list_elem_of_singleton in Hj.
  - intros [Hp Huniq].
    assert (length (indicesOf c l) ≤ 1) as Hle.
    { apply (NoDup_all_eq_length p); [apply NoDup_indicesOf|].
      intros i Hi. apply Huniq, elem_of_indicesOf, Hi. }
    apply elem_of_indicesOf in Hp.
    destruct (indicesOf c l) as [|a [|b r]] eqn:Heq; simpl in Hle.
    + by apply not_elem_of_nil in Hp.
    + apply list_elem_of_singleton in Hp. by subst.
    + lia.
Qed.

Lemma classify_PrimaryCandidate (r : Collected) :
  classify r = PrimaryCandidate ↔ ∃ s, r = inl s ∧ ReadOnly s = false.
Proof.
  destruct r as [s|e]; simpl.
  - destruct (ReadOnly s) eqn:Hro; simpl.
    + split; [|intros (s' & [= <-] & ?); congruence].
      destruct (_ && _); discriminate.
    + split; [eauto | done].
  - split; [discriminate | intros (s & [=] & _)].
Qed.

Lemma classAt_PrimaryCandidate (l : list Collected) (i : nat) :
  classAt l i = Some PrimaryCandidate ↔ writableIn l i.
Proof.
  unfold classAt, writableIn. destruct (l !! i) as [r|]; simpl.
  - split.
    + intros [= Hc]. apply classify_PrimaryCandidate in Hc as (s & -> & Hs). eauto.
    + intros (s & [= ->] & Hs). f_equal. apply classify_PrimaryCandidate. eauto.
  - split; [discriminate | intros (s & [=] & _)].
Qed.




(** The tolerance is part of the rule: with a tolerance of no
    unreachable instance, a cluster of one writable instance and one
    unreachable instance has exactly one primary candidate and no other
    reachable instance, and is judged degraded, with the reason that
    names the unreachable instance count. *)
Lemma healthyIffOnePrimary_fails :
  ¬ healthyIffOnePrimary (sampleSpec 0) (query <$> [sampleWritable 10; sampleDown]).
Proof.
  unfold healthyIffOnePrimary. intros [_ Hback].
  assert (health (Aggregate (sampleSpec 0) (query <$> [sampleWritable 10; sampleDown]))
          = Degraded TooManyUnreachable) as Hdeg by reflexivity.
  rewrite Hback in Hdeg; [discriminate|].
  exists 0. split; [reflexivity|].
  intros [|[|j]] c Hne Hc; [done | | discriminate].
  injection Hc as <-. by left.
Qed.


(** C4: in a cluster where exactly the agent of instance [k] cannot be
    reached, and whatever the order in which the queries complete, the
    collector returns one slot per instance, in index order; slot [k]
    holds the error marker, every other slot holds the status of its
    instance; and the aggregator classifies instance [k], and only it, as
    unreachable. *)
Theorem Collect_partial_failure (spec : ClusterSpec) (w : World) (order : list nat)
    (k : nat) (down : Instance) :
  order ≡ₚ seq 0 (length w) →
  w !! k = Some down →
  (∀ i a, w !! i = Some a → (reachable a = false ↔ i = k)) →
  let res := Collect order w in
  length res = length w
  ∧ res = query <$> w
  ∧ (∃ e, res !! k = Some (inr e))
  ∧ (∀ i a, i ≠ k → w !! i = Some a → res !! i = Some (inl (GetStatus a)))
  ∧ instances (Aggregate spec res) = res
  ∧ indicesOf Unreachable (instances (Aggregate spec res)) = [k].
Proof.
  intros Hperm Hk Hdown res.
  assert (res = query <$> w) as Hres by (apply Collect_by_index, Hperm).
  clearbody res.
  assert (∀ i a, i ≠ k → w !! i = Some a → res !! i = Some (inl (GetStatus a))) as Hup.
  { intros i a Hne Hi. rewrite Hres, list_lookup_fmap, Hi. simpl. unfold query.
    destruct (reachable a) eqn:Hr; [reflexivity|].
    exfalso. apply Hne. by apply (Hdown i a). }
  assert (res !! k = Some (inr "unreachable"%string)) as Hkres.
  { rewrite Hres, list_lookup_fmap, Hk. simpl. unfold query.
    by rewrite (proj2 (Hdown k down Hk) eq_refl). }
  split; [by rewrite Hres, length_fmap|]. split; [exact Hres|].
  split; [eauto|]. split; [exact Hup|]. split; [reflexivity|].
  cbn [Aggregate instances]. apply indicesOf_singleton. unfold classAt. split.
  - by rewrite Hkres.
  - intros j Hj. destruct (decide (j = k)) as [|Hne]; [done|]. exfalso.
    destruct (w !! j) as [a|] eqn:Hw.
    + rewrite (Hup j a Hne Hw) in Hj. simpl in Hj.
      destruct (negb _); [discriminate|]. by destruct (_ && _).
    + rewrite Hres, list_lookup_fmap, Hw in Hj. discriminate.
Qed.

Lemma Collect_partial_failure_witness :
  let w := [sampleWritable 10; sampleDown; sampleReplica (sampleMember 0) 10] in
  let res := Collect [2; 0; 1] w in
  length res = length w
  ∧ res = query <$> w
  ∧ (∃ e, res !! 1 = Some (inr e))
  ∧ (∀ i a, i ≠ 1 → w !! i = Some a → res !! i = Some (inl (GetStatus a)))
  ∧ instances (Aggregate (sampleSpec 1) res) = res
  ∧ indicesOf Unreachable (instances (Aggregate (sampleSpec 1) res)) = [1].
Proof.
  apply (Collect_partial_failure (sampleSpec 1)
           [sampleWritable 10; sampleDown; sampleReplica (sampleMember 0) 10]
           [2; 0; 1] 1 sampleDown).
  - apply (Permutation_cons_append [0; 1] 2).
  - reflexivity.
  - intros [|[|[|i]]] a [= <-]; simpl; split; intros; done.
Defined.

(** ** Decision logic *)

Lemma filter_seq_sorted (P : nat → Prop) `{∀ i, Decision (P i)} (a n : nat) :
  StronglySorted lt (filter P (seq a n)) ∧ Forall (le a) (filter P (seq a n)).
Proof.
  revert a. induction n as [|n IH]; intros a; simpl.
  - split; constructor.
  - destruct (IH (S a)) as [Hs Hf]. rewrite filter_cons.
    assert (Forall (lt a) (filter P (seq (S a) n))) as Hlt.
    { eapply Forall_impl; [exact Hf|]. intros; simpl in *; lia. }
    destruct (decide (P a)).
    + split; [by constructor|]. constructor; [lia|].
      eapply Forall_impl; [exact Hlt|]. intros; simpl in *; lia.
    + split; [exact Hs|]. eapply Forall_impl; [exact Hlt|]. intros; simpl in *; lia.
Qed.

Lemma indicesOf_sorted (c : InstanceClass) (l : list Collected) :
  StronglySorted lt (indicesOf c l).
Proof. apply filter_seq_sorted. Qed.

(** The fold of [further] ends on a candidate that no candidate is
    strictly further than, and that comes first among those as far. *)
Lemma foldl_further (l : list Collected) (cs : list nat) (c : nat) :
  StronglySorted lt (c :: cs) →
  let t := foldl (further l) c cs in
  t ∈ c :: cs
  ∧ ∀ j, j ∈ c :: cs →
         (positionAt l j ≤ positionAt l t)%Z
         ∧ (positionAt l j = positionAt l t → t ≤ j).
Proof.
  revert c. induction cs as [|d cs IH]; intros c Hs; simpl.
  - split; [left|]. intros j ->%list_elem_of_singleton. split; [lia | done].
  - apply StronglySorted_cons in Hs as [Hcd Hs].
    apply Forall_cons in Hcd as [Hcd Hc].
    destruct (Z.ltb_spec (positionAt l c) (positionAt l d)) as [Hlt|Hge].
    + assert (further l c d = d) as ->.
      { unfold further. by rewrite (proj2 (Z.ltb_lt _ _) Hlt). }
      destruct (IH d Hs) as [Hin Hmax]. split; [right; exact Hin|].
      intros j [->|Hj]%elem_of_cons; [|by apply Hmax].
      destruct (Hmax d) as [Hd _]; [left|]. split; lia.
    + assert (further l c d = c) as ->.
      { unfold further. by rewrite (proj2 (Z.ltb_ge _ _) Hge). }
      assert (StronglySorted lt (c :: cs)) as Hs'.
      { apply StronglySorted_cons. split; [exact Hc|].
        by apply StronglySorted_cons in Hs as [_ ?]. }
      destruct (IH c Hs') as [Hin Hmax]. split.
      { apply elem_of_cons in Hin as [->|Hin]; [left | right; right; exact Hin]. }
      intros j [->|[->|Hj]%elem_of_cons]%elem_of_cons.
      * apply Hmax. left.
      * destruct (Hmax c) as [Hle Htie]; [left|]. split; [lia|].
        intros Heq. assert (foldl (further l) c cs ≤ c) by (apply Htie; lia). lia.
      * apply Hmax. right. exact Hj.
Qed.

Lemma selectBest_None (l : list Collected) (cands : list nat) :
  selectBest l cands = None ↔ cands = [].
Proof. destruct cands; simpl; split; done. Qed.

Lemma selectBest_Some (l : list Collected) (cands : list nat) (t : nat) :
  StronglySorted lt cands →
  selectBest l cands = Some t →
  t ∈ cands
  ∧ ∀ j, j ∈ cands →
         (positionAt l j ≤ positionAt l t)%Z
         ∧ (positionAt l j = positionAt l t → t ≤ j).
Proof.
  destruct cands as [|c cs]; [discriminate|]. simpl.
  intros Hs [= <-]. by apply foldl_further.
Qed.

(** C3: when the aggregated status has no primary candidate, the decision
    logic either has no healthy replica to turn to, and then reports the
    failed condition, names no target and emits no operator; or it names
    as target a healthy replica that no healthy replica is strictly
    further than, and that has the lowest index among those as far. *)
Theorem Decide_no_primary (spec : ClusterSpec) (l : list Collected) :
  indicesOf PrimaryCandidate l = [] →
  let d := Decide spec (Aggregate spec l) in
  (indicesOf ReplicaHealthy l = [] →
     condition d = Failed ∧ target d = None ∧ operators d = [])
  ∧ (indicesOf ReplicaHealthy l ≠ [] →
     ∃ t, target d = Some t
          ∧ condition d = NoCondition
          ∧ classAt l t = Some ReplicaHealthy
          ∧ (∀ j, classAt l j = Some ReplicaHealthy →
                  (positionAt l j ≤ positionAt l t)%Z
                  ∧ (positionAt l j = positionAt l t → t ≤ j))
          ∧ Forall (fun op => targetIndex op = t) (operators d)).
Proof.
  intros Hnone d. subst d. unfold Decide. cbn [Aggregate instances].
  rewrite Hnone. cbn [length Nat.ltb Nat.leb]. split.
  - intros ->. done.
  - intros Hne.
    destruct (selectBest l (indicesOf ReplicaHealthy l)) as [t|] eqn:Hsel.
    + apply selectBest_Some in Hsel as [Hin Hmax]; [|apply indicesOf_sorted].
      exists t. split; [reflexivity|]. split; [reflexivity|].
      split; [by apply elem_of_indicesOf|]. split.
      * intros j Hj. by apply Hmax, elem_of_indicesOf.
      * cbn [operators]. unfold establish.
        destruct (ReplicationSourceRef spec) as [src|];
          [destruct (drifted src (l !! t))|]; repeat constructor.
    + by apply selectBest_None in Hsel.
Qed.

Lemma Decide_no_primary_witness :
  let l := query <$> [sampleStopped 7; sampleReplica (sampleMember 0) 9;
                      sampleReplica (sampleMember 0) 9; sampleDown] in
  let d := Decide (sampleSpec 1) (Aggregate (sampleSpec 1) l) in
  (indicesOf ReplicaHealthy l = [] →
     condition d = Failed ∧ target d = None ∧ operators d = [])
  ∧ (indicesOf ReplicaHealthy l ≠ [] →
     ∃ t, target d = Some t
          ∧ condition d = NoCondition
          ∧ classAt l t = Some ReplicaHealthy
          ∧ (∀ j, classAt l j = Some ReplicaHealthy →
                  (positionAt l j ≤ positionAt l t)%Z
                  ∧ (positionAt l j = positionAt l t → t ≤ j))
          ∧ Forall (fun op => targetIndex op = t) (operators d)).
Proof.
  apply (Decide_no_primary (sampleSpec 1)
           (query <$> [sampleStopped 7; sampleReplica (sampleMember 0) 9;
                       sampleReplica (sampleMember 0) 9; sampleDown])).
  reflexivity.
Defined.

Example Decide_sample_failover :
  target (Decide (sampleSpec 1) (Aggregate (sampleSpec 1)
            (query <$> [sampleStopped 7; sampleReplica (sampleMember 0) 9;
                        sampleReplica (sampleMember 0) 9; sampleDown])))
  = Some 1.
Proof. reflexivity. Qed.

Example Decide_sample_failed :
  condition (Decide (sampleSpec 1) (Aggregate (sampleSpec 1)
               (query <$> [sampleStopped 7; sampleStopped 9])))
  = Failed.
Proof. reflexivity. Qed.

(** ** Operators *)

Lemma rpc_length (i : nat) (f : Instance → Instance) (w : World) :
  length (rpc i f w).1 = length w.
Proof.
  unfold rpc. destruct (w !! i) as [a|]; [|reflexivity].
  destruct (reachable a); [apply length_insert | reflexivity].
Qed.

(** An RPC that reaches the agent rewrites the instance and returns no
    error. *)
Lemma rpc_reached (i : nat) (f : Instance → Instance) (w : World) (a : Instance) :
  w !! i = Some a → reachable a = true → rpc i f w = (<[i := f a]> w, None).
Proof. intros Hw Hr. unfold rpc. by rewrite Hw, Hr. Qed.

Lemma configure_length (src : ReplicationSource) (i : nat) (w : World) :
  length (configure src i w).1 = length w.
Proof.
  unfold configure.
  destruct (rpc i (SetReadOnly true) w) as [w1 [e|]] eqn:H1;
    pose proof (rpc_length i (SetReadOnly true) w) as Hl1; rewrite H1 in Hl1; [exact Hl1|].
  destruct (rpc i (ConfigureReplication src) w1) as [w2 [e|]] eqn:H2;
    pose proof (rpc_length i (ConfigureReplication src) w1) as Hl2; rewrite H2 in Hl2;
    simpl in *; congruence.
Qed.

Lemma Run_length (member : nat → ReplicationSource) (op : Operator) (w : World) :
  length (Run member op w).1 = length w.
Proof. destruct op; simpl; auto using configure_length, rpc_length. Qed.

Lemma RunAll_length (member : nat → ReplicationSource) (ops : list Operator) (w : World) :
  length (RunAll member ops w).1 = length w.
Proof.
  revert w. induction ops as [|op ops IH]; intros w; simpl; [reflexivity|].
  destruct (Run member op w) as [w1 e] eqn:H1.
  destruct (RunAll member ops w1) as [w2 es] eqn:H2. simpl.
  pose proof (IH w1) as Hl2. rewrite H2 in Hl2.
  pose proof (Run_length member op w) as Hl1. rewrite H1 in Hl1.
  simpl in *. congruence.
Qed.

Lemma SetReadOnly_twice (b : bool) (a : Instance) :
  SetReadOnly b (SetReadOnly b a) = SetReadOnly b a.
Proof. reflexivity. Qed.

(** Demoting the reachable instances [ds] sets the read-only flag of each
    of them and touches no other instance. *)
Lemma RunAll_demote (member : nat → ReplicationSource) (ds : list nat) (w : World) :
  (∀ i, i ∈ ds → ∃ a, w !! i = Some a ∧ reachable a = true) →
  ∀ j, (RunAll member (setReadOnly <$> ds) w).1 !! j
       = if decide (j ∈ ds) then SetReadOnly true <$> w !! j else w !! j.
Proof.
  revert w. induction ds as [|i ds IH]; intros w Hup j.
  - reflexivity.
  - destruct (Hup i) as (a & Hw & Hr); [left|].
    cbn [fmap list_fmap RunAll Run]. rewrite (rpc_reached i _ w a Hw Hr).
    destruct (RunAll member (setReadOnly <$> ds) (<[i:=SetReadOnly true a]> w))
      as [w2 es] eqn:H2.
    cbn [fst].
    assert (w2 = (RunAll member (setReadOnly <$> ds) (<[i:=SetReadOnly true a]> w)).1)
      as -> by (by rewrite H2).
    clear H2 es. rewrite IH.
    + destruct (decide (j = i)) as [->|Hne].
      * rewrite list_lookup_insert_eq by (eapply lookup_lt_Some, Hw).
        rewrite Hw. rewrite (decide_True (P := i ∈ i :: ds)) by left.
        by destruct (decide (i ∈ ds)).
      * rewrite list_lookup_insert_ne by done.
        destruct (decide (j ∈ ds)) as [Hin|Hnin].
        -- by rewrite (decide_True (P := j ∈ i :: ds)) by (right; done).
        -- rewrite (decide_False (P := j ∈ i :: ds)); [done|].
           intros [?|?]%elem_of_cons; done.
    + intros i' Hi'. destruct (decide (i' = i)) as [->|Hne].
      * exists (SetReadOnly true a). split; [|exact Hr].
        apply list_lookup_insert_eq. eapply lookup_lt_Some, Hw.
      * rewrite list_lookup_insert_ne by done. apply Hup. right. exact Hi'.
Qed.

Lemma writableIn_query (w : World) (j : nat) :
  writableIn (query <$> w) j ↔
    ∃ a, w !! j = Some a ∧ reachable a = true ∧ read_only a = false.
Proof.
  unfold writableIn. rewrite list_lookup_fmap.
  destruct (w !! j) as [a|]; simpl.
  - unfold query. destruct (reachable a) eqn:Hr.
    + split.
      * intros (s & [= <-] & Hs). eauto.
      * intros (a' & [= <-] & _ & Hro). eauto.
    + split; [intros (s & [=] & _) | intros (a' & [= <-] & ? & _); congruence].
  - split; [intros (s & [=] & _) | intros (a' & [=] & _)].
Qed.

(** ** Split brain *)

Lemma indicesOf_shift (c : InstanceClass) (r : Collected) (l : list Collected) (a n : nat) :
  filter (fun i => classAt (r :: l) i = Some c) (seq (S a) n)
  = S <$> filter (fun i => classAt l i = Some c) (seq a n).
Proof.
  revert a. induction n as [|n IH]; intros a; [reflexivity|].
  cbn [seq]. rewrite !filter_cons, IH.
  change (classAt (r :: l) (S a)) with (classAt l a).
  by destruct (decide (classAt l a = Some c)).
Qed.

(** Counting a class by index or by element is the same. *)
Lemma indicesOf_length (c : InstanceClass) (l : list Collected) :
  length (indicesOf c l) = length (filter (fun r => classify r = c) l).
Proof.
  induction l as [|r l IH]; [reflexivity|].
  unfold indicesOf in *. cbn [length seq]. rewrite !filter_cons, indicesOf_shift.
  change (classAt (r :: l) 0) with (Some (classify r)).
  destruct (decide (Some (classify r) = Some c)) as [[= Hc]|Hn];
    destruct (decide (classify r = c)) as [Hc'|Hn']; try congruence;
    cbn [length]; rewrite length_fmap; by rewrite IH.
Qed.

Lemma indicesOf_length_perm (c : InstanceClass) (l l2 : list Collected) :
  l2 ≡ₚ l → length (indicesOf c l2) = length (indicesOf c l).
Proof. intros Hp. rewrite !indicesOf_length. by rewrite Hp. Qed.

Lemma positionAt_status (l : list Collected) (i : nat) (s : InstanceStatus) :
  l !! i = Some (inl s) → positionAt l i = ExecutedPosition s.
Proof. intros Hl. unfold positionAt. by rewrite Hl. Qed.

(** The split-brain branch of the decision logic. *)
Lemma Decide_split (spec : ClusterSpec) (l : list Collected) :
  1 < length (indicesOf PrimaryCandidate l) →
  ∃ k, target (Decide spec (Aggregate spec l)) = Some k
       ∧ condition (Decide spec (Aggregate spec l)) = NoCondition
       ∧ operators (Decide spec (Aggregate spec l))
         = setReadOnly <$> filter (fun i => Some i ≠ Some k) (indicesOf PrimaryCandidate l)
       ∧ writableIn l k
       ∧ ∀ j, writableIn l j →
              (positionAt l j ≤ positionAt l k)%Z
              ∧ (positionAt l j = positionAt l k → k ≤ j).
Proof.
  intros Hmany. unfold Decide. cbn [Aggregate instances].
  rewrite (proj2 (Nat.ltb_lt _ _) Hmany).
  destruct (selectBest l (indicesOf PrimaryCandidate l)) as [k|] eqn:Hsel.
  - apply selectBest_Some in Hsel as [Hin Hmax]; [|apply indicesOf_sorted].
    exists k. repeat split; try reflexivity.
    + by apply classAt_PrimaryCandidate, elem_of_indicesOf.
    + by apply Hmax, elem_of_indicesOf, classAt_PrimaryCandidate.
    + by apply Hmax, elem_of_indicesOf, classAt_PrimaryCandidate.
  - apply selectBest_None in Hsel. rewrite Hsel in Hmany. simpl in Hmany. lia.
Qed.

(** The highest position among the writable instances does not depend on
    the order in which the instances are listed; when a single instance
    holds it, that instance is the same under every order. *)
Lemma best_position_perm (l l2 : list Collected) (k k2 : nat) :
  l2 ≡ₚ l →
  writableIn l k → (∀ j, writableIn l j → (positionAt l j ≤ positionAt l k)%Z) →
  writableIn l2 k2 → (∀ j, writableIn l2 j → (positionAt l2 j ≤ positionAt l2 k2)%Z) →
  positionAt l2 k2 = positionAt l k
  ∧ ((∀ j, writableIn l j → j ≠ k → (positionAt l j < positionAt l k)%Z) →
     l2 !! k2 = l !! k).
Proof.
  intros Hp (s & Hk & Hs) Hmax (s2 & Hk2 & Hs2) Hmax2.
  assert (∃ j, l !! j = Some (inl s2)) as [j Hj].
  { apply list_elem_of_lookup. rewrite <- Hp. by eapply list_elem_of_lookup_2. }
  assert (∃ j2, l2 !! j2 = Some (inl s)) as [j2 Hj2].
  { apply list_elem_of_lookup. rewrite Hp. by eapply list_elem_of_lookup_2. }
  assert (writableIn l j) as Hwj by (exists s2; done).
  assert (writableIn l2 j2) as Hwj2 by (exists s; done).
  pose proof (Hmax j Hwj) as H1. pose proof (Hmax2 j2 Hwj2) as H2.
  rewrite (positionAt_status l j s2 Hj), (positionAt_status l k s Hk) in H1.
  rewrite (positionAt_status l2 j2 s Hj2), (positionAt_status l2 k2 s2 Hk2) in H2.
  rewrite (positionAt_status l2 k2 s2 Hk2), (positionAt_status l k s Hk).
  split; [lia|]. intros Huniq.
  destruct (decide (j = k)) as [->|Hne]; [congruence|].
  pose proof (Huniq j Hwj Hne) as H3.
  rewrite (positionAt_status l j s2 Hj) in H3. lia.
Qed.

(** C2: when more than one instance is collected writable, one pass of
    the decision logic names as survivor a writable instance that no
    writable instance is strictly further than; its operators are exactly
    the demotions of every other writable instance, so no promotion is
    part of the pass; once they have run, the next collection shows the
    survivor, with its status unchanged, as the only writable instance.
    Listing the same instances in another order gives a survivor at the
    same position, and the same instance when a single one is furthest. *)
Theorem Decide_split_brain (member : nat → ReplicationSource) (spec : ClusterSpec)
    (w : World) (order order' : list nat) :
  order ≡ₚ seq 0 (length w) →
  order' ≡ₚ seq 0 (length w) →
  let l := Collect order w in
  1 < length (indicesOf PrimaryCandidate l) →
  let d := Decide spec (Aggregate spec l) in
  let l' := Collect order' (pass member spec order w) in
  ∃ k,
    target d = Some k
    ∧ writableIn l k
    ∧ (∀ j, writableIn l j → (positionAt l j ≤ positionAt l k)%Z)
    ∧ (∀ op, op ∈ operators d ↔ ∃ i, op = setReadOnly i ∧ writableIn l i ∧ i ≠ k)
    ∧ (∀ j, writableIn l' j ↔ j = k)
    ∧ l' !! k = l !! k
    ∧ (∀ w2 order2,
         w2 ≡ₚ w → order2 ≡ₚ seq 0 (length w2) →
         let l2 := Collect order2 w2 in
         ∃ k2, target (Decide spec (Aggregate spec l2)) = Some k2
               ∧ positionAt l2 k2 = positionAt l k
               ∧ ((∀ j, writableIn l j → j ≠ k → (positionAt l j < positionAt l k)%Z) →
                  l2 !! k2 = l !! k)).
Proof.
  intros Hperm Hperm' l Hmany d l'.
  assert (l = query <$> w) as Hl by (apply Collect_by_index, Hperm).
  destruct (Decide_split spec l Hmany) as (k & Htgt & _ & Hops & Hk & Hmax).
  set (ds := filter (fun i => Some i ≠ Some k) (indicesOf PrimaryCandidate l)) in *.
  assert (∀ i, i ∈ ds ↔ writableIn l i ∧ i ≠ k) as Hds.
  { intros i. unfold ds. rewrite list_elem_of_filter, elem_of_indicesOf,
      classAt_PrimaryCandidate. split; intros [? ?]; split; congruence. }
  set (w' := pass member spec order w).
  assert (w' = (RunAll member (setReadOnly <$> ds) w).1) as Hw'.
  { unfold w', pass. fold l. fold d. unfold d. by rewrite Hops. }
  assert (∀ j, w' !! j = if decide (j ∈ ds) then SetReadOnly true <$> w !! j else w !! j)
    as Hlook.
  { rewrite Hw'. apply RunAll_demote. intros i [Hi _]%Hds.
    rewrite Hl in Hi. apply writableIn_query in Hi as (a & ? & ? & _). eauto. }
  assert (l' = query <$> w') as Hl'.
  { apply Collect_by_index. rewrite Hw', RunAll_length. exact Hperm'. }
  assert (k ∉ ds) as Hkds by (intros [_ ?]%Hds; done).
  exists k. split; [exact Htgt|]. split; [exact Hk|].
  split; [intros j Hj; by apply Hmax|]. split; [|split; [|split]].
  - intros op. unfold d. rewrite Hops, list_elem_of_fmap. split.
    + intros (i & -> & Hi). exists i. split; [done|]. by apply Hds.
    + intros (i & -> & Hi). exists i. split; [done|]. by apply Hds.
  - intros j. rewrite Hl', writableIn_query, Hlook.
    destruct (decide (j ∈ ds)) as [Hin|Hnin].
    + split.
      * intros (a' & Ha' & _ & Hro). destruct (w !! j); [|discriminate].
        injection Ha' as <-. discriminate.
      * intros ->. done.
    + rewrite <- writableIn_query, <- Hl. split.
      * intros Hj. destruct (decide (j = k)); [done|]. exfalso. by apply Hnin, Hds.
      * by intros ->.
  - rewrite Hl', Hl, !list_lookup_fmap, Hlook. by rewrite decide_False.
  - intros w2 order2 Hp2 Hord2 l2.
    assert (l2 = query <$> w2) as Hl2 by (apply Collect_by_index, Hord2).
    assert (l2 ≡ₚ l) as Hpl by (by rewrite Hl2, Hl, Hp2).
    assert (1 < length (indicesOf PrimaryCandidate l2)) as Hmany2.
    { by rewrite (indicesOf_length_perm _ _ _ Hpl). }
    destruct (Decide_split spec l2 Hmany2) as (k2 & Htgt2 & _ & _ & Hk2 & Hmax2).
    exists k2. split; [exact Htgt2|].
    apply best_position_perm; try done.
    + intros j Hj. by apply Hmax.
    + intros j Hj. by apply Hmax2.
Qed.

Lemma Decide_split_brain_witness :
  let w := [sampleWritable 5; sampleWritable 9; sampleReplica (sampleMember 1) 9] in
  let l := Collect [1; 0; 2] w in
  let d := Decide (sampleSpec 0) (Aggregate (sampleSpec 0) l) in
  let l' := Collect [0; 1; 2] (pass sampleMember (sampleSpec 0) [1; 0; 2] w) in
  ∃ k,
    target d = Some k
    ∧ writableIn l k
    ∧ (∀ j, writableIn l j → (positionAt l j ≤ positionAt l k)%Z)
    ∧ (∀ op, op ∈ operators d ↔ ∃ i, op = setReadOnly i ∧ writableIn l i ∧ i ≠ k)
    ∧ (∀ j, writableIn l' j ↔ j = k)
    ∧ l' !! k = l !! k
    ∧ (∀ w2 order2,
         w2 ≡ₚ w → order2 ≡ₚ seq 0 (length w2) →
         let l2 := Collect order2 w2 in
         ∃ k2, target (Decide (sampleSpec 0) (Aggregate (sampleSpec 0) l2)) = Some k2
               ∧ positionAt l2 k2 = positionAt l k
               ∧ ((∀ j, writableIn l j → j ≠ k → (positionAt l j < positionAt l k)%Z) →
                  l2 !! k2 = l !! k)).
Proof.
  apply (Decide_split_brain sampleMember (sampleSpec 0)
           [sampleWritable 5; sampleWritable 9; sampleReplica (sampleMember 1) 9]
           [1; 0; 2] [0; 1; 2]).
  - apply perm_swap.
  - reflexivity.
  - vm_compute. lia.
Defined.

(** Two writable instances, in either order: the one at position 9 stays
    writable and the one at position 5 is demoted. *)
Example pass_sample_split_brain :
  read_only <$> pass sampleMember (sampleSpec 0) [0; 1] [sampleWritable 5; sampleWritable 9]
  = [true; false]
  ∧ read_only <$> pass sampleMember (sampleSpec 0) [0; 1] [sampleWritable 9; sampleWritable 5]
    = [false; true].
Proof. split; reflexivity. Qed.

(** With equal positions the lowest index stays writable. *)
Example pass_sample_split_brain_tie :
  read_only <$> pass sampleMember (sampleSpec 0) [0; 1] [sampleWritable 9; sampleWritable 9]
  = [false; true].
Proof. reflexivity. Qed.

(** ** Configure operators *)

(** On a reachable instance that already replicates from [src] in good
    health, a configure operator changes nothing and returns no error. *)
Lemma configure_noop (src : ReplicationSource) (i : nat) (w : World) (a : Instance) :
  w !! i = Some a → reachable a = true → replicaOf src a →
  configure src i w = (w, None).
Proof.
  intros Hw Hr [Hsrc Hcls]. unfold configure.
  assert (read_only a = true ∧ replicating a = true ∧ link a src = (0, 0)%Z)
    as (Hro & Hrep & Hlink).
  { simpl in Hcls. unfold ioErrno, sqlErrno in Hcls. rewrite Hsrc in Hcls.
    destruct (read_only a); [|discriminate]. cbn [negb] in Hcls.
    destruct (_ && _) eqn:Hall in Hcls; [|discriminate].
    rewrite !andb_true_iff in Hall.
    destruct Hall as [[[[[_ Hrep] Hio] _] _] Hsql].
    rewrite Hrep in Hio, Hsql.
    apply Z.eqb_eq in Hio, Hsql.
    destruct (link a src) as [io sql]. simpl in Hio, Hsql. by subst. }
  assert (SetReadOnly true a = a) as Hs.
  { destruct a; simpl in *. by subst. }
  assert (ConfigureReplication src a = a) as Hc.
  { destruct a; simpl in *. by subst. }
  rewrite (rpc_reached i _ w a Hw Hr), Hs, (list_insert_id w i a Hw).
  rewrite (rpc_reached i _ w a Hw Hr), Hc, (list_insert_id w i a Hw).
  unfold verifyReplica, query. rewrite Hw, Hr.
  cbn [GetStatus SourceHost LastIOErrno LastSQLErrno].
  unfold ioErrno, sqlErrno. rewrite Hsrc, Hrep, Hlink. cbn [from_option fst snd].
  by rewrite String.eqb_refl.
Qed.

Lemma configure_reached (src : ReplicationSource) (i : nat) (w : World) (a : Instance) :
  w !! i = Some a → reachable a = true →
  configure src i w
  = (<[i := ConfigureReplication src (SetReadOnly true a)]> w,
     verifyReplica src i (<[i := ConfigureReplication src (SetReadOnly true a)]> w)).
Proof.
  intros Hw Hr. unfold configure.
  assert (i < length w) as Hlt by (eapply lookup_lt_Some, Hw).
  rewrite (rpc_reached i _ w a Hw Hr).
  rewrite (rpc_reached i _ _ (SetReadOnly true a));
    [|by apply list_lookup_insert_eq|exact Hr].
  by rewrite list_insert_insert_eq.
Qed.

(** Running a configure operator again, in the world its first run left,
    changes nothing more and returns what the first run returned. *)
Lemma configure_twice (src : ReplicationSource) (i : nat) (w : World) :
  configure src i (configure src i w).1 = configure src i w.
Proof.
  destruct (w !! i) as [a|] eqn:Hw; [destruct (reachable a) eqn:Hr|].
  - assert (i < length w) as Hlt by (eapply lookup_lt_Some, Hw).
    rewrite (configure_reached src i w a Hw Hr). cbn [fst].
    set (a2 := ConfigureReplication src (SetReadOnly true a)).
    rewrite (configure_reached src i _ a2); [|by apply list_lookup_insert_eq|exact Hr].
    change (ConfigureReplication src (SetReadOnly true a2)) with a2.
    by rewrite list_insert_insert_eq.
  - assert (configure src i w = (w, Some "agent unavailable"%string)) as Hfail.
    { unfold configure, rpc. by rewrite Hw, Hr. }
    by rewrite Hfail.
  - assert (configure src i w = (w, Some "no such instance"%string)) as Hfail.
    { unfold configure, rpc. by rewrite Hw. }
    by rewrite Hfail.
Qed.

Lemma rpc_twice (i : nat) (f : Instance → Instance) (w : World) :
  (∀ a, reachable (f a) = reachable a) → (∀ a, f (f a) = f a) →
  rpc i f (rpc i f w).1 = rpc i f w.
Proof.
  intros Hreach Hidem.
  destruct (w !! i) as [a|] eqn:Hw; [destruct (reachable a) eqn:Hr|].
  - assert (i < length w) as Hlt by (eapply lookup_lt_Some, Hw).
    rewrite (rpc_reached i f w a Hw Hr). cbn [fst].
    rewrite (rpc_reached i f _ (f a)); [|by apply list_lookup_insert_eq|by rewrite Hreach].
    by rewrite list_insert_insert_eq, Hidem.
  - assert (rpc i f w = (w, Some "agent unavailable"%string)) as Hfail.
    { unfold rpc. by rewrite Hw, Hr. }
    by rewrite Hfail.
  - assert (rpc i f w = (w, Some "no such instance"%string)) as Hfail.
    { unfold rpc. by rewrite Hw. }
    by rewrite Hfail.
Qed.

Lemma rpc_noop (i : nat) (f : Instance → Instance) (w : World) (a : Instance) :
  w !! i = Some a → reachable a = true → f a = a → rpc i f w = (w, None).
Proof. intros Hw Hr Hf. by rewrite (rpc_reached i f w a Hw Hr), Hf, list_insert_id. Qed.

(** C5: for every operator, when the agent of the target instance is
    reachable and the instance is already in the state the operator is
    meant to establish, [Run] leaves the world as it is and returns no
    error, the first time and the second time. Besides, from any world,
    running an operator again right after itself changes nothing more and
    returns the same result. *)
Theorem Run_idempotent (member : nat → ReplicationSource) (op : Operator)
    (w : World) (a : Instance) :
  w !! targetIndex op = Some a → reachable a = true → endState member op w →
  Run member op w = (w, None)
  ∧ Run member op (Run member op w).1 = (w, None)
  ∧ ∀ w0, Run member op (Run member op w0).1 = Run member op w0.
Proof.
  intros Hw Hr Hend.
  assert (Run member op w = (w, None)) as Hnoop.
  { destruct op as [i p|i options|i|i]; simpl in *;
      destruct Hend as (a' & Hw' & Hend); rewrite Hw in Hw'; injection Hw' as <-.
    - by eapply configure_noop.
    - by eapply configure_noop.
    - eapply rpc_noop; [done..|]. destruct a; simpl in *. by subst.
    - eapply rpc_noop; [done..|]. destruct a; simpl in *. by subst. }
  split; [exact Hnoop|]. split; [by rewrite Hnoop|].
  intros w0. destruct op as [i p|i options|i|i]; simpl.
  - apply configure_twice.
  - apply configure_twice.
  - by apply rpc_twice.
  - by apply rpc_twice.
Qed.

Lemma Run_idempotent_witness :
  let op := configureIntermediatePrimary 0 sampleSource in
  let w := [sampleReplica sampleSource 4; sampleWritable 8] in
  Run sampleMember op w = (w, None)
  ∧ Run sampleMember op (Run sampleMember op w).1 = (w, None)
  ∧ ∀ w0, Run sampleMember op (Run sampleMember op w0).1 = Run sampleMember op w0.
Proof.
  apply (Run_idempotent sampleMember (configureIntermediatePrimary 0 sampleSource)
           [sampleReplica sampleSource 4; sampleWritable 8]
           (sampleReplica sampleSource 4)).
  - reflexivity.
  - reflexivity.
  - exists (sampleReplica sampleSource 4). split; [reflexivity|]. split; reflexivity.
Defined.

(** The scenario of the operator's test: two fresh, writable instances,
    the first one configured as intermediate primary of an outside
    source. *)
Example configureIntermediatePrimary_sample :
  let w' := (Run sampleMember (configureIntermediatePrimary 0 sampleSource)
               [sampleWritable 0; sampleWritable 0]).1 in
  length (Collect [0; 1] w') = 2
  ∧ classify <$> Collect [0; 1] w' = [ReplicaHealthy; PrimaryCandidate].
Proof. split; reflexivity. Qed.

(** A single writable instance, once a replication source is declared,
    is a healthy replica of that source after one pass. *)
Example pass_sample_intermediate_primary :
  let spec := {| Replicas := 1; ReplicationSourceRef := Some sampleSource;
                 UnreachableTolerance := 0 |} in
  Collect [0] (pass sampleMember spec [0] [sampleWritable 0])
  = [inl {| ReadOnly := true; IORunning := true; SQLRunning := true;
            LastIOErrno := 0; LastSQLErrno := 0;
            SourceHost := "mysqld2"; SourcePort := 3307;
            ExecutedPosition := 0 |}].
Proof. reflexivity. Qed.

(** * Further properties of the connection factory *)

Close Scope nat_scope.
Open Scope Z_scope.

Lemma WithDeadline_parent (parent : Context) (d : Time) :
  parentOf (WithDeadline parent d) = Some parent.
Proof.
  unfold WithDeadline, WithCancel.
  destruct (Deadline parent) as [cur|]; [destruct (Time_Before cur d)|]; reflexivity.
Qed.

Lemma WithDeadline_Deadline (parent : Context) (d : Time) :
  Deadline (WithDeadline parent d)
  = Some (match Deadline parent with Some cur => Z.min cur d | None => d end).
Proof.
  unfold WithDeadline, WithCancel, Time_Before.
  destruct (Deadline parent) as [cur|] eqn:Hp; [|reflexivity].
  destruct (Z.ltb_spec cur d); simpl.
  - rewrite Hp. f_equal. lia.
  - f_equal. lia.
Qed.

Section AgentMore.

Context `{Imports}.

(** X1: the resolver is asked under a direct child of the caller's context,
    whose deadline is the earlier of the caller's deadline and 5 seconds
    after the clock reading of the call: [New] never extends the deadline
    it was given, and sets one of 5 seconds when it was given none. *)
Theorem New_resolve_context {W : Type} (h : Handler W) (w : W)
    (f : defaultAgentFactory) (ctx : Context) (cluster : MySQLCluster) (index : Z) :
  ∃ res w' tr now ctx',
    exec h (New f ctx cluster index) w = (Some res, w', tr)
    ∧ omap clockOf tr = [now]
    ∧ resolveContexts tr = [ctx']
    ∧ parentOf ctx' = Some ctx
    ∧ Deadline ctx'
      = Some (match Deadline ctx with
              | Some cur => Z.min cur (now + 5000000000)
              | None => now + 5000000000
              end).
Proof.
  destruct (exec_New h w f ctx cluster index) as (res & w' & tr & Hex & Hnr).
  destruct Hnr as [now ip e ctx'|now ip cfg conn e ctx'|now ip cfg conn ctx'];
    eexists _, w', _, now, ctx'; (split; [exact Hex|]);
    (split; [reflexivity|]); (split; [reflexivity|]);
    (split; [apply WithDeadline_parent | apply WithDeadline_Deadline]).
Qed.

(** X2: every call of [New] makes either three calls (clock, resolver,
    cancel) or five (clock, resolver, reloader, [grpc.NewClient], cancel),
    in that order, and the three-call run is the one in which the
    resolver failed. So [New] asks no collaborator twice, consults the
    reloader only after a successful resolution, issues no RPC, closes no
    connection, and ends by cancelling the context it resolved under. *)
Theorem New_call_sequence {W : Type} (h : Handler W) (w : W)
    (f : defaultAgentFactory) (ctx : Context) (cluster : MySQLCluster) (index : Z) :
  ∃ res w' tr,
    exec h (New f ctx cluster index) w = (Some res, w', tr)
    ∧ (kindOf <$> tr = [ClockCall; ResolveCall; CancelCall]
       ∨ kindOf <$> tr = [ClockCall; ResolveCall; TLSConfigCall; DialCall; CancelCall])
    ∧ (kindOf <$> tr = [ClockCall; ResolveCall; CancelCall]
       ↔ ∃ e, resolveErrors tr = [Some e])
    ∧ omap cancelOf tr = resolveContexts tr
    ∧ Forall (fun c => kindOf c ≠ InvokeCall ∧ kindOf c ≠ CloseCall) tr.
Proof.
  destruct (exec_New h w f ctx cluster index) as (res & w' & tr & Hex & Hnr).
  exists res, w', tr. split; [exact Hex|].
  destruct Hnr as [now ip e ctx'|now ip cfg conn e ctx'|now ip cfg conn ctx'].
  - split; [by left|]. split; [split; [by eexists | done]|].
    split; [reflexivity|]. repeat constructor; discriminate.
  - split; [by right|]. split; [split; [discriminate | by intros [? [=]]]|].
    split; [reflexivity|]. repeat constructor; discriminate.
  - split; [by right|]. split; [split; [discriminate | by intros [? [=]]]|].
    split; [reflexivity|]. repeat constructor; discriminate.
Qed.

(** X3: whenever [New] returns an error, on either failure path, the
    connection value returned with it cannot be used: [Close] and every
    client method panic on it. *)
Theorem New_error_result_unusable {W : Type} (h : Handler W) (w : W)
    (f : defaultAgentFactory) (ctx : Context) (cluster : MySQLCluster) (index : Z) :
  ∃ c err w' tr,
    exec h (New f ctx cluster index) w = (Some (c, err), w', tr)
    ∧ (is_Some err →
         AgentConn_Close c = Panic (option error) "nil pointer dereference"
         ∧ ∀ method req,
             AgentConn_call c method req
             = Panic (Message * option error) "nil pointer dereference").
Proof.
  destruct (exec_New h w f ctx cluster index) as ([c err] & w' & tr & Hex & Hnr).
  exists c, err, w', tr. split; [exact Hex|]. intros Herr.
  inversion Hnr; subst; try (by destruct Herr); split; reflexivity.
Qed.

End AgentMore.

(** ** The dial target *)

Lemma append_nil (b : string) : ("" +:+ b = b)%string.
Proof. reflexivity. Qed.

Lemma append_cons (x : ascii) (a b : string) :
  (String x a +:+ b = String x (a +:+ b))%string.
Proof. reflexivity. Qed.

Lemma containsByte_app (c : ascii) (a b : string) :
  containsByte c (a +:+ b) = containsByte c a || containsByte c b.
Proof.
  induction a as [|x a IH]; [reflexivity|].
  rewrite append_cons. simpl. destruct (Ascii.eqb x c); [reflexivity | exact IH].
Qed.

Lemma append_assoc (a b c : string) : ((a +:+ b) +:+ c = a +:+ (b +:+ c))%string.
Proof.
  induction a as [|x a IH]; [reflexivity|]. rewrite !append_cons. by rewrite IH.
Qed.

Lemma append_snoc_inj (a b : string) (c : ascii) :
  (a +:+ String c "" = b +:+ String c "")%string → a = b.
Proof.
  revert b. induction a as [|x a IH]; intros [|y b];
    rewrite ?append_nil, ?append_cons; intros Heq.
  - reflexivity.
  - injection Heq as _ Heq. destruct b; discriminate.
  - injection Heq as _ Heq. destruct a; discriminate.
  - injection Heq as -> Heq. f_equal. by apply IH.
Qed.

(** Two strings that end in a colon and a colon-free part are equal only
    when both parts are. *)
Lemma append_colon_inj (a b p q : string) :
  containsByte ":" p = false → containsByte ":" q = false →
  (a +:+ String ":" p = b +:+ String ":" q)%string → a = b ∧ p = q.
Proof.
  intros Hp Hq. revert b. induction a as [|x a IH]; intros [|y b];
    rewrite ?append_nil, ?append_cons; intros Heq.
  - injection Heq as ->. done.
  - injection Heq as <- ->. rewrite containsByte_app in Hp. simpl in Hp.
    by rewrite orb_true_r in Hp.
  - injection Heq as -> <-. rewrite containsByte_app in Hq. simpl in Hq.
    by rewrite orb_true_r in Hq.
  - injection Heq as -> Heq. destruct (IH b Heq) as [-> ->]. done.
Qed.

Lemma containsByte_string_of_uint (d : Decimal.uint) :
  containsByte ":" (NilEmpty.string_of_uint d) = false.
Proof. induction d; simpl; auto. Qed.

(** [strconv.Itoa] prints no colon. *)
Lemma containsByte_Itoa (n : Z) : containsByte ":" (Itoa n) = false.
Proof.
  unfold Itoa, NilEmpty.string_of_int.
  destruct (Z.to_int n); simpl; apply containsByte_string_of_uint.
Qed.

(** [strconv.Itoa] prints different numbers differently. *)
Lemma Itoa_inj (n m : Z) : Itoa n = Itoa m → n = m.
Proof.
  unfold Itoa. intros Heq.
  apply (f_equal NilEmpty.int_of_string) in Heq.
  rewrite !NilEmpty.isi in Heq. injection Heq as Heq.
  apply (f_equal Z.of_int) in Heq. by rewrite !DecimalZ.of_to in Heq.
Qed.

(** A host and a decimal port can be read back from the address
    [net.JoinHostPort] makes of them. *)
Lemma JoinHostPort_Itoa_inj (h1 h2 : string) (n1 n2 : Z) :
  JoinHostPort h1 (Itoa n1) = JoinHostPort h2 (Itoa n2) → h1 = h2 ∧ n1 = n2.
Proof.
  unfold JoinHostPort.
  pose proof (containsByte_Itoa n1) as Hp1. pose proof (containsByte_Itoa n2) as Hp2.
  assert (∀ h p, ("[" +:+ h +:+ "]:" +:+ p = ("[" +:+ h +:+ "]") +:+ String ":" p)%string)
    as Hbr.
  { intros h p. by rewrite !append_assoc. }
  destruct (containsByte ":" h1) eqn:Hc1; destruct (containsByte ":" h2) eqn:Hc2;
    rewrite ?Hbr; intros Heq;
    apply append_colon_inj in Heq as [Hh Hn]; try done.
  - apply Itoa_inj in Hn. split; [|exact Hn].
    rewrite !append_cons, !append_nil in Hh. injection Hh as Hh.
    by apply append_snoc_inj in Hh.
  - exfalso. rewrite <- Hh, !containsByte_app, Hc1 in Hc2.
    rewrite orb_true_l, orb_true_r in Hc2. discriminate.
  - exfalso. rewrite Hh, !containsByte_app, Hc2 in Hc1.
    rewrite orb_true_l, orb_true_r in Hc1. discriminate.
  - apply Itoa_inj in Hn. done.
Qed.

Section AgentTarget.

Context `{Imports}.

(** X4: two successful calls of [New] that created their gRPC clients for
    the same target had resolved the same address: no two addresses share
    a target, whether they are bracketed as IPv6 literals or not. *)
Theorem New_target_determines_address {W1 W2 : Type}
    (h1 : Handler W1) (h2 : Handler W2) (w1 w1' : W1) (w2 w2' : W2)
    (f1 f2 : defaultAgentFactory) (ctx1 ctx2 : Context)
    (cluster1 cluster2 : MySQLCluster) (index1 index2 : Z)
    (c1 c2 : AgentConn) (tr1 tr2 : list Call) :
  exec h1 (New f1 ctx1 cluster1 index1) w1 = (Some (c1, None), w1', tr1) →
  exec h2 (New f2 ctx2 cluster2 index2) w2 = (Some (c2, None), w2', tr2) →
  dialTargets tr1 = dialTargets tr2 →
  resolvedAddresses tr1 = resolvedAddresses tr2.
Proof.
  intros Hrun1 Hrun2.
  apply exec_New_inv in Hrun1 as (res1 & [= <-] & Hnr1).
  apply exec_New_inv in Hrun2 as (res2 & [= <-] & Hnr2).
  inversion Hnr1 as [| |now1 ip1 cfg1 conn1 ctx1' Hc1 Htr1]; subst.
  inversion Hnr2 as [| |now2 ip2 cfg2 conn2 ctx2' Hc2 Htr2]; subst.
  cbn. intros [= Heq]. apply JoinHostPort_Itoa_inj in Heq as [-> _]. reflexivity.
Qed.

End AgentTarget.

Lemma New_target_determines_address_witness :
  resolvedAddresses
    (exec (sampleHandler None None)
          (New sampleFactory backgroundCtx "single"%string 0) 0%nat).2
  = resolvedAddresses
      (exec (sampleHandler None None)
            (New sampleFactory (cancelCtx backgroundCtx) "other"%string 1) 7%nat).2.
Proof.
  apply (New_target_determines_address (H := sampleImports)
           (sampleHandler None None) (sampleHandler None None) 0%nat 5%nat 7%nat 12%nat
           sampleFactory sampleFactory backgroundCtx (cancelCtx backgroundCtx)
           "single"%string "other"%string 0 1
           (boxAgentConn (H := sampleImports)
              {| AgentClient := Some (NewAgentClient (H := sampleImports) (Some 3%nat));
                 ClientConn := Some 3%nat |})
           (boxAgentConn (H := sampleImports)
              {| AgentClient := Some (NewAgentClient (H := sampleImports) (Some 10%nat));
                 ClientConn := Some 10%nat |})).
  - reflexivity.
  - reflexivity.
  - reflexivity.
Defined.

(** An IPv6 address is bracketed, any other host is not. *)
Example JoinHostPort_samples :
  JoinHostPort "10.0.0.7" (Itoa 9080) = "10.0.0.7:9080"%string
  ∧ JoinHostPort "fd00::7" (Itoa 9080) = "[fd00::7]:9080"%string.
Proof. split; reflexivity. Qed.

(** * Properties of the lifecycle test *)

Lemma healthOf_skip (healthy : string) (pre rest : list lifecycle.MySQLClusterCondition) :
  Forall (fun c => lifecycle.Type_ c ≠ healthy) pre →
  lifecycle.healthOf healthy (pre ++ rest) = lifecycle.healthOf healthy rest.
Proof.
  induction 1 as [|c pre Hc _ IH]; [reflexivity|]. simpl.
  by rewrite (proj2 (String.eqb_neq _ _) Hc).
Qed.

Lemma healthOf_None (healthy : string) (conds : list lifecycle.MySQLClusterCondition) :
  lifecycle.healthOf healthy conds = None →
  ∃ pre cond post,
    conds = pre ++ cond :: post
    ∧ Forall (fun c => lifecycle.Type_ c ≠ healthy) pre
    ∧ lifecycle.Type_ cond = healthy
    ∧ lifecycle.Status cond = lifecycle.ConditionTrue.
Proof.
  induction conds as [|c conds IH]; [discriminate|]. simpl.
  destruct (String.eqb_spec (lifecycle.Type_ c) healthy) as [Ht|Ht]; simpl.
  - destruct (String.eqb_spec (lifecycle.Status c) lifecycle.ConditionTrue) as [Hs|Hs];
      [|discriminate].
    intros _. exists [], c, conds. by repeat split.
  - intros (pre & cond & post & -> & Hpre & Hc & Hs)%IH.
    exists (c :: pre), cond, post. repeat split; [by constructor | done..].
Qed.

(** X5: the check of "should construct a single-instance cluster" looks at
    the first condition of type Healthy and at no other: it succeeds
    exactly when the cluster could be read and that condition has status
    True; a first Healthy condition with another status fails it with
    that status, whatever follows; without a Healthy condition it fails
    with "no health condition"; and an error of [getCluster] is returned
    as it is. *)
Theorem clusterHealthy_first_condition (healthy : string)
    (conds : list lifecycle.MySQLClusterCondition) (err : option error) :
  (lifecycle.clusterHealthy healthy (conds, err) = None ↔
     err = None
     ∧ ∃ pre cond post,
         conds = pre ++ cond :: post
         ∧ Forall (fun c => lifecycle.Type_ c ≠ healthy) pre
         ∧ lifecycle.Type_ cond = healthy
         ∧ lifecycle.Status cond = "True"%string)
  ∧ (∀ pre cond post,
       err = None → conds = pre ++ cond :: post →
       Forall (fun c => lifecycle.Type_ c ≠ healthy) pre →
       lifecycle.Type_ cond = healthy → lifecycle.Status cond ≠ "True"%string →
       lifecycle.clusterHealthy healthy (conds, err)
       = Some ("cluster is not healthy: " +:+ lifecycle.Status cond)%string)
  ∧ (err = None → Forall (fun c => lifecycle.Type_ c ≠ healthy) conds →
       lifecycle.clusterHealthy healthy (conds, err) = Some "no health condition"%string)
  ∧ (∀ e, err = Some e → lifecycle.clusterHealthy healthy (conds, err) = Some e).
Proof.
  split; [|split; [|split]].
  - unfold lifecycle.clusterHealthy. destruct err as [e|].
    + split; [discriminate | by intros [? _]].
    + split.
      * intros Hn. split; [reflexivity|]. by apply healthOf_None.
      * intros (_ & pre & cond & post & -> & Hpre & Hc & Hs).
        rewrite healthOf_skip by exact Hpre. simpl.
        rewrite (proj2 (String.eqb_eq _ _) Hc). simpl.
        by rewrite Hs.
  - intros pre cond post -> -> Hpre Hc Hs. simpl.
    rewrite healthOf_skip by exact Hpre. simpl.
    rewrite (proj2 (String.eqb_eq _ _) Hc). simpl.
    by destruct (String.eqb_spec (lifecycle.Status cond) lifecycle.ConditionTrue).
  - intros -> Hall. simpl.
    rewrite <- (app_nil_r conds). by rewrite healthOf_skip.
  - by intros e ->.
Qed.

Section ConfigMapProps.

Variable ConfigMap : Type.
Variable Name : ConfigMap → string.
Variable format : ConfigMap → string.
Variable Unmarshal : string → list ConfigMap * option error.

Lemma expected_names (cm : ConfigMap) :
  lifecycle.expected ConfigMap Name cm = true ↔
    Name cm = "kube-root-ca.crt"%string ∨ Name cm = "mycnf"%string.
Proof.
  unfold lifecycle.expected. rewrite orb_true_iff, !String.eqb_eq. done.
Qed.

Lemma pendingConfigMap_None (items : list ConfigMap) :
  lifecycle.pendingConfigMap ConfigMap Name format items = None ↔
    Forall (fun cm => Name cm = "kube-root-ca.crt"%string ∨ Name cm = "mycnf"%string) items.
Proof.
  induction items as [|cm items IH]; simpl.
  - split; [constructor | done].
  - destruct (lifecycle.expected ConfigMap Name cm) eqn:Hcm.
    + rewrite IH, Forall_cons. apply expected_names in Hcm. tauto.
    + split; [discriminate|]. intros [Hn _]%Forall_cons.
      apply expected_names in Hn. congruence.
Qed.

Lemma pendingConfigMap_first (pre post : list ConfigMap) (cm : ConfigMap) :
  Forall (fun cm => Name cm = "kube-root-ca.crt"%string ∨ Name cm = "mycnf"%string) pre →
  ¬ (Name cm = "kube-root-ca.crt"%string ∨ Name cm = "mycnf"%string) →
  lifecycle.pendingConfigMap ConfigMap Name format (pre ++ cm :: post)
  = Some ("pending config map " +:+ format cm)%string.
Proof.
  intros Hpre Hcm. induction Hpre as [|c pre Hc _ IH]; simpl.
  - destruct (lifecycle.expected ConfigMap Name cm) eqn:He; [|reflexivity].
    by apply expected_names in He.
  - by rewrite (proj2 (expected_names c) Hc).
Qed.

(** X6: the config map check of "should collect generated resources after
    deleting MySQLCluster" succeeds exactly when [kubectl] succeeded, its
    output could be decoded, and every config map left is named
    kube-root-ca.crt or mycnf (none left is fine); otherwise, past these
    two errors, it fails on the first config map with another name, and
    the error shows that config map. *)
Theorem configMapsCollected_leftovers (out : string) (err : option error) :
  (lifecycle.configMapsCollected ConfigMap Name format Unmarshal (out, err) = None ↔
     err = None
     ∧ (Unmarshal out).2 = None
     ∧ Forall (fun cm => Name cm = "kube-root-ca.crt"%string ∨ Name cm = "mycnf"%string)
              (Unmarshal out).1)
  ∧ (∀ pre cm post,
       err = None → Unmarshal out = (pre ++ cm :: post, None) →
       Forall (fun cm => Name cm = "kube-root-ca.crt"%string ∨ Name cm = "mycnf"%string) pre →
       ¬ (Name cm = "kube-root-ca.crt"%string ∨ Name cm = "mycnf"%string) →
       lifecycle.configMapsCollected ConfigMap Name format Unmarshal (out, err)
       = Some ("pending config map " +:+ format cm)%string)
  ∧ (∀ e, err = Some e →
       lifecycle.configMapsCollected ConfigMap Name format Unmarshal (out, err) = Some e)
  ∧ (∀ e, err = None → (Unmarshal out).2 = Some e →
       lifecycle.configMapsCollected ConfigMap Name format Unmarshal (out, err) = Some e).
Proof.
  unfold lifecycle.configMapsCollected. split; [|split; [|split]].
  - destruct err as [e|]; [split; [discriminate | by intros [? _]]|].
    destruct (Unmarshal out) as [items [e|]]; simpl.
    + split; [discriminate | by intros (_ & ? & _)].
    + rewrite pendingConfigMap_None. tauto.
  - intros pre cm post -> -> Hpre Hcm. by apply pendingConfigMap_first.
  - by intros e ->.
  - intros e ->. destruct (Unmarshal out) as [items err']. simpl. by intros ->.
Qed.

End ConfigMapProps.

(** A cluster whose first Healthy condition is False is not healthy for
    the test, even if a later one is True. *)
Example clusterHealthy_sample :
  lifecycle.clusterHealthy "Healthy"
    ([{| lifecycle.Type_ := "Initialized"; lifecycle.Status := "True" |};
      {| lifecycle.Type_ := "Healthy"; lifecycle.Status := "False" |};
      {| lifecycle.Type_ := "Healthy"; lifecycle.Status := "True" |}], None)
  = Some "cluster is not healthy: False"%string.
Proof. reflexivity. Qed.
